(** * Verifiable data structures: batch mutator, log tree hash, map client

    A shallow embedding of the mutation pipeline ([api/batch_mutator.go],
    [api/service.go]), of the service calls [LogTreeHash] and [LogCreate],
    and of the map client's proof-header parser ([client/map.go]), with the
    properties the specification states about them. *)

From Stdlib Require Import ZArith Strings.Byte Strings.Ascii Strings.String.
From stdpp Require Import base option list gmap strings pretty.

Open Scope Z_scope.

(** ** Errors and fallible results *)

(** Go [error] values.  The three named sentinels are the ones the sources
    mention; [ErrExternal] stands for an error produced by a collaborator
    (storage substrate, protobuf, strconv, hex, transport), tagged by its
    message. *)
Inductive error : Type :=
| ErrInvalidTreeRange
| ErrInvalidRequest
| ErrNoSuchKey
| ErrExternal (msg : string).

#[global] Instance error_eq_dec : EqDecision error.
Proof. solve_decision. Defined.

(** A call that returns [(T, error)]: either a value or a non-nil error. *)
Inductive result (A : Type) : Type :=
| Ok (a : A)
| Fail (e : error).
Arguments Ok {A} a.
Arguments Fail {A} e.

#[global] Instance result_ret : MRet result := fun _ a => Ok a.
#[global] Instance result_bind : MBind result := fun _ _ f r =>
  match r with
  | Ok a => f a
  | Fail e => Fail e
  end.

(** The [error] a Go function returns next to its value: [None] is [nil]. *)
Definition errOf {A} (r : result A) : option error :=
  match r with
  | Ok _ => None
  | Fail e => Some e
  end.

(** ** Bytes and hexadecimal encoding *)

Abbreviation bytes := (list byte).

#[global] Instance byte_eq_dec : EqDecision byte := Byte.byte_eq_dec.
#[global] Instance byte_countable : Countable byte :=
  inj_countable Byte.to_N Byte.of_N Byte.of_to_N.

(** [bytes.Equal] *)
Definition bytes_Equal (a b : bytes) : bool := bool_decide (a = b).

Module Hex.

(** [const hextable = "0123456789abcdef"] *)
Definition hextable : list ascii :=
  ["0"; "1"; "2"; "3"; "4"; "5"; "6"; "7";
   "8"; "9"; "a"; "b"; "c"; "d"; "e"; "f"]%char.

Definition digit (n : N) : ascii :=
  nth (N.to_nat n) hextable "0"%char.

(** One step of [hex.Encode]: [hextable[v>>4]], [hextable[v&0x0f]]. *)
Definition EncodeByte (v : byte) : string :=
  let n := Byte.to_N v in
  String (digit (N.shiftr n 4)) (String (digit (N.land n 15)) EmptyString).

(** [hex.EncodeToString] *)
Fixpoint EncodeToString (src : bytes) : string :=
  match src with
  | [] => EmptyString
  | v :: rest => (EncodeByte v ++ EncodeToString rest)%string
  end.

(** [fromHexChar]: both cases of the letters are accepted. *)
Definition fromHexChar (c : ascii) : option N :=
  let n := N_of_ascii c in
  if (48 <=? n)%N && (n <=? 57)%N then Some (n - 48)%N
  else if (97 <=? n)%N && (n <=? 102)%N then Some (n - 97 + 10)%N
  else if (65 <=? n)%N && (n <=? 70)%N then Some (n - 65 + 10)%N
  else None.

Definition DecodeByte (hi lo : ascii) : option byte :=
  a ← fromHexChar hi; b ← fromHexChar lo; Byte.of_N (a * 16 + b)%N.

(** [hex.DecodeString]: an odd length or a character that is no hex
    digit is an error. *)
Fixpoint DecodeString (s : string) : result bytes :=
  match s with
  | EmptyString => Ok []
  | String _ EmptyString => Fail (ErrExternal "encoding/hex: odd length hex string")
  | String hi (String lo rest) =>
      match DecodeByte hi lo with
      | Some v => rest' ← DecodeString rest; Ok (v :: rest')
      | None => Fail (ErrExternal "encoding/hex: invalid byte")
      end
  end.

End Hex.

(** ** Protocol-buffer messages *)

(** [proto.Message] with [proto.Marshal] and [proto.Unmarshal].  The
    protobuf library is an external collaborator: the development is
    parametric in it. *)
Class Proto (Msg : Type) : Type := {
  Marshal : Msg → result bytes;
  Unmarshal : bytes → result Msg;
}.

(** The protobuf round trip: decoding what [Marshal] produced gives the
    message back. *)
Definition ProtoRoundTrip (Msg : Type) `{!Proto Msg} : Prop :=
  ∀ (v : Msg) (b : bytes), Marshal v = Ok b → Unmarshal b = Ok v.

(** Raw byte strings as messages: both directions are the identity. *)
Definition rawProto : Proto bytes :=
  {| Marshal := λ v, Ok v; Unmarshal := λ b, Ok b |}.

(** ** Key readers, key writers and the procedures written against them *)

Module KV.
Section kv.
Context {Msg : Type}.

(** [KeyReader]: the one-method interface [Get(bucket, key, value) error];
    the message read is returned instead of filled in. *)
Definition KeyReader : Type := bytes → bytes → result Msg.

(** [KeyWriter]: a [KeyReader] with [Set(bucket, key, value) error], over
    the writer's state [W]; [Set] gives the state after the call and the
    error returned. *)
Record KeyWriter (W : Type) : Type := mkKeyWriter {
  kwGet : W → bytes → bytes → result Msg;
  kwSet : W → bytes → bytes → Msg → W * option error;
}.

(** Code that receives a [kw KeyWriter] and can do nothing with it but call
    [kw.Get] and [kw.Set]: the calls it makes, each continued with what the
    call returned, until it returns a value or an error. *)
Inductive kvprog (A : Type) : Type :=
| Return (a : A)
| Raise (e : error)
| CallGet (bucket key : bytes) (k : result Msg → kvprog A)
| CallSet (bucket key : bytes) (value : Msg) (k : option error → kvprog A).

(** Running such code on a key writer in state [w]. *)
Fixpoint run {W A : Type} (kw : KeyWriter W) (p : kvprog A) (w : W)
    : W * result A :=
  match p with
  | Return _ a => (w, Ok a)
  | Raise _ e => (w, Fail e)
  | CallGet _ bucket key k => run kw (k (kwGet W kw w bucket key)) w
  | CallSet _ bucket key value k =>
      let r := kwSet W kw w bucket key value in
      run kw (k r.2) r.1
  end.

(** Sequencing: [p], then [f] on what it returned. *)
Fixpoint bind {A B : Type} (p : kvprog A) (f : A → kvprog B) : kvprog B :=
  match p with
  | Return _ a => f a
  | Raise _ e => Raise B e
  | CallGet _ bucket key k => CallGet B bucket key (λ r, bind (k r) f)
  | CallSet _ bucket key value k => CallSet B bucket key value (λ r, bind (k r) f)
  end.

End kv.

Arguments KeyReader Msg : clear implicits.
Arguments KeyWriter Msg W : clear implicits.
Arguments kvprog Msg A : clear implicits.
Arguments Return {Msg A} a.
Arguments Raise {Msg A} e.
Arguments CallGet {Msg A} bucket key k.
Arguments CallSet {Msg A} bucket key value k.
Arguments kwGet {Msg W} _ _ _ _.
Arguments kwSet {Msg W} _ _ _ _ _.

(** Modelled from the spec: the KV substrate of §4.A and §6, which is not
    among the sources.  [snapshot] is the reader a read-only scope on a
    namespace hands to its body (or the substrate's failure to open one);
    [txGet] and [txSet] are the key writer of a read-write scope on a
    namespace, acting on the store. *)
Class Substrate (Msg Store : Type) : Type := {
  snapshot : Store → bytes → result (KeyReader Msg);
  txGet : Store → bytes → bytes → bytes → result Msg;
  txSet : Store → bytes → bytes → bytes → Msg → Store * option error;
}.

Section scopes.
Context {Msg Store : Type} `{!Substrate Msg Store}.

(** [ExecuteReadOnly(ns, body)]: any failure surfaces to the caller. *)
Definition ExecuteReadOnly {A : Type} (st : Store) (ns : bytes)
    (body : KeyReader Msg → result A) : result A :=
  kr ← snapshot st ns; body kr.

Definition txWriter (ns : bytes) : KeyWriter Msg Store :=
  {| kwGet := λ st, txGet st ns; kwSet := λ st, txSet st ns |}.

(** [ExecuteUpdate(ns, body)]: on a clean return all writes are committed,
    on any failure all of them are discarded. *)
Definition ExecuteUpdate (st : Store) (ns : bytes) (body : kvprog Msg unit)
    : Store * option error :=
  match run (txWriter ns) body st with
  | (st', Ok _) => (st', None)
  | (_, Fail e) => (st, Some e)
  end.

End scopes.
End KV.

(** ** The in-batch overlay ([mapNoLockDB], api/batch_mutator.go) *)

Module Overlay.
Section overlay.
Context {Msg : Type} `{!Proto Msg}.

(** [type op struct { Key, Bucket []byte; Value proto.Message }] *)
Record op : Type := mkOp { Key : bytes; Bucket : bytes; Value : Msg }.

(** [type mapNoLockDB struct { M map[string][]byte; Parent KeyReader; L []*op }] *)
Record mapNoLockDB : Type := mkMapNoLockDB {
  M : gmap string bytes;
  Parent : KV.KeyReader Msg;
  L : list op;
}.

(** [hex.EncodeToString(bucket) + "|" + hex.EncodeToString(key)] *)
Definition mapKey (bucket key : bytes) : string :=
  Hex.EncodeToString bucket +:+ "|" +:+ Hex.EncodeToString key.

(** [func (m *mapNoLockDB) Get(bucket, key []byte, value proto.Message) error] *)
Definition mapNoLockDB_Get (m : mapNoLockDB) (bucket key : bytes) : result Msg :=
  let k := mapKey bucket key in
  match M m !! k with
  | Some b => Unmarshal b
  | None => Parent m bucket key
  end.

(** [func (m *mapNoLockDB) Set(bucket, key []byte, value proto.Message) error]:
    the overlay after the call and the error returned. *)
Definition mapNoLockDB_Set (m : mapNoLockDB) (bucket key : bytes) (value : Msg)
  : mapNoLockDB * option error :=
  let k := mapKey bucket key in
  match Marshal value with
  | Fail err => (m, Some err)
  | Ok b =>
      ({| M := <[k:=b]> (M m);
          Parent := Parent m;
          L := L m ++ [ {| Bucket := bucket; Key := key; Value := value |} ] |},
       None)
  end.

(** [wrapper := &mapNoLockDB{M: make(map[string][]byte)}] followed by
    [wrapper.Parent = kr]. *)
Definition newWrapper (kr : KV.KeyReader Msg) : mapNoLockDB :=
  {| M := ∅; Parent := kr; L := [] |}.

(** A history of [Set] calls on one overlay, oldest first. *)
Definition SetAll (m : mapNoLockDB) (calls : list op) : mapNoLockDB :=
  foldl (λ m o, (mapNoLockDB_Set m (Bucket o) (Key o) (Value o)).1) m calls.

(** The calls of a history that [Set] accepted (their value marshalled). *)
Definition accepted (o : op) : bool :=
  match Marshal (Value o) with Ok _ => true | Fail _ => false end.

Definition addresses (bucket key : bytes) (o : op) : bool :=
  bool_decide (Bucket o = bucket ∧ Key o = key).

(** The most recent accepted [Set] to a bucket/key pair, if any. *)
Definition lastSet (calls : list op) (bucket key : bytes) : option op :=
  last (List.filter (λ o, addresses bucket key o && accepted o) calls).

(** The overlay as the [KeyWriter] handed to [ApplyMutation]. *)
Definition writer : KV.KeyWriter Msg mapNoLockDB :=
  {| KV.kwGet := mapNoLockDB_Get; KV.kwSet := mapNoLockDB_Set |}.

(** [kw.Set] for each operation of a list in order, up to the first that
    fails. *)
Fixpoint setEach {W : Type} (kw : KV.KeyWriter Msg W) (l : list op) (w : W)
    : W * option error :=
  match l with
  | [] => (w, None)
  | o :: rest =>
      match KV.kwSet kw w (Bucket o) (Key o) (Value o) with
      | (w, Some e) => (w, Some e)
      | (w, None) => setEach kw rest w
      end
  end.

(** The replay loop of [consume], run inside the read-write scope:
    [for _, o := range wrapper.L { err := kw.Set(o.Bucket, o.Key, o.Value);
    if err != nil { return err } }], continued with [k]. *)
Fixpoint replay (l : list op) (k : KV.kvprog Msg unit) : KV.kvprog Msg unit :=
  match l with
  | [] => k
  | o :: rest =>
      KV.CallSet (Bucket o) (Key o) (Value o)
        (λ err, match err with
                | Some e => KV.Raise e
                | None => replay rest k
                end)
  end.

(** Modelled from the spec: a [KeyWriter] of the KV substrate (§4.A, §6),
    which is not among the sources, as an in-memory writer: [Set] stores the
    value's bytes under bucket and key, the last write to a pair wins;
    [Get] of a pair never set is [ErrNoSuchKey]. *)
Definition memKV : KV.KeyWriter Msg (gmap (bytes * bytes) bytes) :=
  {| KV.kwGet := λ kv bucket key,
       match kv !! (bucket, key) with
       | Some b => Unmarshal b
       | None => Fail ErrNoSuchKey
       end;
     KV.kwSet := λ kv bucket key value,
       match Marshal value with
       | Ok b => (<[(bucket, key):=b]> kv, None)
       | Fail e => (kv, Some e)
       end |}.

End overlay.

Arguments op Msg : clear implicits.
Arguments mapNoLockDB Msg : clear implicits.

End Overlay.

(** ** The batch mutator (api/batch_mutator.go) *)

(** Go's [int] on a 64-bit platform: arithmetic wraps around. *)
Definition wrapInt (z : Z) : Z := (z + 2 ^ 63) `mod` 2 ^ 64 - 2 ^ 63.

Module Batch.

(** The mutation applier and the size record of a namespace:
    [ApplyMutation(kw, curSize, mut)], [readObjectSize(kr)] and
    [writeObjectSize(kw, size)] are called by the batch mutator but are not
    among the sources; the development is parametric in them.  They reach
    the storage only through the reader or writer they are given. *)
Class Engine (Msg Mutation : Type) : Type := {
  ApplyMutation : Z → Mutation → KV.kvprog Msg Z;
  readObjectSize : KV.KeyReader Msg → result Z;
  writeObjectSize : Z → KV.kvprog Msg unit;
}.

(** [type BatchMutatorConfig struct]; the [Writer] is the store the
    functions below are given. *)
Record BatchMutatorConfig : Type := mkConfig {
  Timeout : Z;
  BatchSize : Z;
  BufferSize : Z;
}.

Section batch.
Context {Msg : Type} `{!Proto Msg}.
Context {Mutation : Type} `{!Engine Msg Mutation}.
Context {Store : Type} `{!KV.Substrate Msg Store}.

(** [type chObject struct { ns []byte; mut *pb.Mutation }] *)
Record chObject : Type := mkChObject { ns : bytes; mut : Mutation }.

(** What the consumer will find on [bm.Ch], oldest first; the end of the
    list is the channel being closed.  The flag of an item says how the
    race in [handleBatch]'s [select] ends when the consumer waits for that
    item there: [true] when [time.After(bm.Conf.Timeout)] fires first. *)
Definition arrivals : Type := list (bool * chObject).

(** [seed, ok = <-bm.Ch]: the blocking receive of [consume]. *)
Definition receive (ch : arrivals) : option (chObject * arrivals) :=
  match ch with
  | [] => None
  | (_, o) :: rest => Some (o, rest)
  end.

(** What [handleBatch] leaves behind: the key writer and the channel after
    it, the objects [ApplyMutation] was called on (oldest first), and what
    it returns, [(int64, *chObject, error)]. *)
Record handled (W : Type) : Type := mkHandled {
  h_kw : W;
  h_ch : arrivals;
  h_applied : list chObject;
  h_ret : result (Z * option chObject);
}.
Arguments mkHandled {W} _ _ _ _.
Arguments h_kw {W} _.
Arguments h_ch {W} _.
Arguments h_applied {W} _.
Arguments h_ret {W} _.

(** The [for] loop of [handleBatch], entered with [obj], [cnt] and
    [curSize] as they stand. *)
Fixpoint handleBatch_loop {W : Type} (kwi : KV.KeyWriter Msg W)
    (seed obj : chObject) (cnt curSize : Z) (kw : W) (applied : list chObject)
    (ch : arrivals) {struct ch} : handled W :=
  if negb (bytes_Equal (ns seed) (ns obj)) then
    mkHandled kw ch applied (Ok (curSize, Some seed))
  else
    match KV.run kwi (ApplyMutation curSize (mut obj)) kw with
    | (kw, Fail err) => mkHandled kw ch (applied ++ [obj]) (Fail err)
    | (kw, Ok curSize) =>
        let applied := applied ++ [obj] in
        let cnt := wrapInt (cnt - 1) in
        if cnt =? 0 then mkHandled kw ch applied (Ok (curSize, None))
        else
          match ch with
          | [] => mkHandled kw ch applied (Ok (curSize, None))
          | (true, _) :: _ => mkHandled kw ch applied (Ok (curSize, None))
          | (false, o) :: rest =>
              handleBatch_loop kwi seed o cnt curSize kw applied rest
          end
    end.

(** [func (bm *batchMutatorImpl) handleBatch(kw KeyWriter, startSize int64,
    seed *chObject) (int64, *chObject, error)] *)
Definition handleBatch {W : Type} (conf : BatchMutatorConfig)
    (kwi : KV.KeyWriter Msg W) (kw : W) (startSize : Z) (seed : chObject)
    (ch : arrivals) : handled W :=
  handleBatch_loop kwi seed seed (BatchSize conf) startSize kw [] ch.

(** What the read-only scope of one [consume] iteration hands back through
    the variables its body captured. *)
Record batch : Type := mkBatch {
  startSize : Z;
  nextSize : Z;
  nextSeed : option chObject;
  wrapper : Overlay.mapNoLockDB Msg;
  remaining : arrivals;
  applied : list chObject;
}.

(** The body given to [ExecuteReadOnly] in [consume]. *)
Definition readBody (conf : BatchMutatorConfig) (seed : chObject)
    (ch : arrivals) (kr : KV.KeyReader Msg) : result batch :=
  startSize ← readObjectSize kr;
  let h := handleBatch conf Overlay.writer (Overlay.newWrapper kr) startSize seed ch in
  '(nextSize, seed') ← h_ret h;
  Ok (mkBatch startSize nextSize seed' (h_kw h) (h_ch h) (h_applied h)).

(** The body given to [ExecuteUpdate] in [consume]. *)
Definition saveBody (wrapper : Overlay.mapNoLockDB Msg) (nextSize : Z)
    : KV.kvprog Msg unit :=
  Overlay.replay (Overlay.L wrapper) (writeObjectSize nextSize).

(** What [consume] does, as seen from outside. *)
Inductive event : Type :=
| EvReadOnly (ns : bytes)
| EvApply (o : chObject)
| EvUpdate (ns : bytes) (ops : list (Overlay.op Msg)) (size : Z).

(** How [consume] ends: it returns when the channel is closed, and
    [log.Fatal(err)] ends the process. *)
Inductive outcome : Type :=
| Returned
| Fatal (err : error)
| OutOfFuel.

(** The objects [ApplyMutation] was called on, and the read-write scopes
    opened, in a run of events. *)
Definition applies (evs : list event) : list chObject :=
  evs ≫= λ ev, match ev with EvApply o => [o] | _ => [] end.

Definition updates (evs : list event) : list (bytes * list (Overlay.op Msg) * Z) :=
  evs ≫= λ ev, match ev with EvUpdate ns ops size => [(ns, ops, size)] | _ => [] end.

(** Applying the mutations of a list of objects in order, each at the size
    the one before it returned, up to the first that fails (§4.F: each
    pulled item is applied through the overlay; any applier error aborts
    the batch). *)
Fixpoint applyAll {W : Type} (kwi : KV.KeyWriter Msg W) (kw : W) (size : Z)
    (objs : list chObject) : W * result Z :=
  match objs with
  | [] => (kw, Ok size)
  | obj :: rest =>
      match KV.run kwi (ApplyMutation size (mut obj)) kw with
      | (kw, Ok size) => applyAll kwi kw size rest
      | (kw, Fail err) => (kw, Fail err)
      end
  end.

(** The objects the body given to [ExecuteReadOnly] has called
    [ApplyMutation] on by the time it returns, with an error or without:
    none when [readObjectSize] fails, else those of [handleBatch], the one
    whose error ends the batch included. *)
Definition readApplied (conf : BatchMutatorConfig) (seed : chObject)
    (ch : arrivals) (kr : KV.KeyReader Msg) : list chObject :=
  match readObjectSize kr with
  | Ok startSize =>
      h_applied (handleBatch conf Overlay.writer (Overlay.newWrapper kr)
                   startSize seed ch)
  | Fail _ => []
  end.

(** The same for the read-only scope: its body is not run when the scope
    cannot be opened. *)
Definition attempted (conf : BatchMutatorConfig) (st : Store)
    (seed : chObject) (ch : arrivals) : list chObject :=
  match KV.ExecuteReadOnly st (ns seed) (λ kr, Ok (readApplied conf seed ch kr)) with
  | Ok l => l
  | Fail _ => []
  end.

(** One pass through the body of [consume]'s outer [for] loop with the
    seed it has: the store and the events after it, and either the error
    given to [log.Fatal] or the channel and the seed for the next pass.
    When the read-only scope returns an error, the calls of
    [ApplyMutation] made before it are in the events all the same. *)
Definition consume_body (conf : BatchMutatorConfig) (st : Store)
    (seed : chObject) (ch : arrivals)
    : Store * list event * result (arrivals * option chObject) :=
  let ns := ns seed in
  match KV.ExecuteReadOnly st ns (readBody conf seed ch) with
  | Fail err =>
      (st, EvReadOnly ns :: (EvApply <$> attempted conf st seed ch), Fail err)
  | Ok b =>
      let evs := EvReadOnly ns :: (EvApply <$> applied b) in
      if nextSize b >? startSize b then
        let ev := EvUpdate ns (Overlay.L (wrapper b)) (nextSize b) in
        match KV.ExecuteUpdate st ns (saveBody (wrapper b) (nextSize b)) with
        | (st, Some err) => (st, evs ++ [ev], Fail err)
        | (st, None) => (st, evs ++ [ev], Ok (remaining b, nextSeed b))
        end
      else (st, evs, Ok (remaining b, nextSeed b))
  end.

(** [func (bm *batchMutatorImpl) consume()], the outer [for] loop unrolled
    at most [fuel] times, entered with [seed] as it stands: the store, the
    events and the outcome. *)
Fixpoint consume_loop (fuel : nat) (conf : BatchMutatorConfig) (st : Store)
    (ch : arrivals) (seed : option chObject) : Store * list event * outcome :=
  match fuel with
  | O => (st, [], OutOfFuel)
  | S fuel =>
      match (match seed with
             | None => receive ch
             | Some seed => Some (seed, ch)
             end) with
      | None => (st, [], Returned)
      | Some (seed, ch) =>
          match consume_body conf st seed ch with
          | (st, evs, Fail err) => (st, evs, Fatal err)
          | (st, evs, Ok (ch, seed)) =>
              let '(st, evs', out) := consume_loop fuel conf st ch seed in
              (st, evs ++ evs', out)
          end
      end
  end.

(** [consume] from its start ([seed == nil]); the fuel is enough for every
    channel content (see [consume_terminates]). *)
Definition consume (conf : BatchMutatorConfig) (st : Store) (ch : arrivals)
    : Store * list event * outcome :=
  consume_loop (2 * length ch + 2) conf st ch None.

(** [func (bm *batchMutatorImpl) QueueMutation(ns []byte, mut *pb.Mutation) error]:
    the send [bm.Ch <- &chObject{ns: ns, mut: mut}] on the buffered
    channel and the [nil] returned.  The send waits while the channel is
    full; the call is taken from the moment the channel has room. *)
Definition QueueMutation (ch : list chObject) (ns : bytes) (mut : Mutation)
    : list chObject * option error :=
  (ch ++ [ {| ns := ns; mut := mut |} ], None).

(** A history of [QueueMutation] calls, oldest first, on a channel that
    starts empty and is not read meanwhile: the channel after them and what
    each call returned. *)
Definition queueAll (reqs : list (bytes * Mutation))
    : list chObject * list (option error) :=
  foldl (λ acc r, let q := QueueMutation acc.1 r.1 r.2 in (q.1, acc.2 ++ [q.2]))
    ([], []) reqs.

End batch.

Arguments mkHandled {Mutation W} _ _ _ _.
Arguments h_kw {Mutation W} _.
Arguments h_ch {Mutation W} _.
Arguments h_applied {Mutation W} _.
Arguments h_ret {Mutation W} _.
Arguments chObject Mutation : clear implicits.
Arguments arrivals Mutation : clear implicits.
Arguments handled Mutation W : clear implicits.
Arguments batch Msg Mutation : clear implicits.
Arguments event Msg Mutation : clear implicits.

End Batch.

(** ** The instant mutator (api/service.go) *)

Module Instant.

(** [ApplyMutation(kw, mut) error] in the version the instant mutator
    calls; it is not among the sources. *)
Class Applier (Msg Mutation : Type) : Type :=
  ApplyMutation : Mutation → KV.kvprog Msg unit.

(** [type instancePromise struct { Err error }] *)
Record instancePromise : Type := mkPromise { Err : option error }.

(** [func (i *instancePromise) WaitUntilDone() error] *)
Definition WaitUntilDone (i : instancePromise) : option error := Err i.

Section instant.
Context {Msg Mutation : Type} `{!Applier Msg Mutation}.
Context {Store : Type} `{!KV.Substrate Msg Store}.

(** [func (m *InstantMutator) QueueMutation(ns []byte, mut *pb.Mutation)
    (MutatorPromise, error)]; [m.Writer] is the store, given back as the
    call leaves it.  The two [log.Printf] lines have no other effect. *)
Definition QueueMutation (st : Store) (ns : bytes) (mut : Mutation)
    : Store * (instancePromise * option error) :=
  let r := KV.ExecuteUpdate st ns (ApplyMutation mut) in
  (r.1, ({| Err := r.2 |}, None)).

End instant.
End Instant.

(** ** The service calls [LogTreeHash] and [LogCreate] *)

Module Pb.

(** [pb.LogType]; the sources name the plain log, [STRUCT_TYPE_LOG].
    Modelled from the spec: the two other kinds of log, the mutation log
    and the tree-head log of a map (§3). *)
Inductive LogType : Type :=
| STRUCT_TYPE_LOG
| STRUCT_TYPE_MUTATION_LOG
| STRUCT_TYPE_TREEHEAD_LOG.

#[global] Instance LogType_eq_dec : EqDecision LogType.
Proof. solve_decision. Defined.

(** [pb.LogRef], with the fields the sources read; the field [LogType] is
    [LogType_] here, the name being taken by its type. *)
Record LogRef : Type := mkLogRef { Name : string; LogType_ : LogType }.

(** [pb.LogTreeHashRequest] *)
Record LogTreeHashRequest : Type := mkLogTreeHashRequest {
  Log : LogRef;
  TreeSize : Z;
}.

(** [pb.LogTreeHashResponse]; its field [TreeSize] is [RespTreeSize] here,
    to tell it from the request's. *)
Record LogTreeHashResponse : Type := mkLogTreeHashResponse {
  RespTreeSize : Z;
  RootHash : bytes;
}.

(** [pb.LogTreeHash], the stored root of one tree size. *)
Record LogTreeHash : Type := mkLogTreeHash { Mth : bytes }.

(** [pb.LogCreateRequest]; its field [Log] is [CreateLog] here. *)
Record LogCreateRequest : Type := mkLogCreateRequest { CreateLog : LogRef }.

(** [pb.LogCreateResponse], which has no fields. *)
Record LogCreateResponse : Type := mkLogCreateResponse { }.

(** [pb.Mutation], with the field [LogCreate] sets. *)
Record Mutation : Type := mkMutation { LogCreate : option LogCreateRequest }.

End Pb.

Module Service.

(** What [LogTreeHash] calls and the sources do not hold: the access check,
    the namespace of a log, and the two lookups, which read through the
    [KeyReader] they are given. *)
Class LogReads (Msg : Type) : Type := {
  verifyAccessForLogOperation : Pb.LogRef → option error;
  logBucket : Pb.LogRef → result bytes;
  lookupLogTreeHead : KV.KeyReader Msg → Pb.LogType → result Pb.LogTreeHashResponse;
  lookupLogRootHashBySize : KV.KeyReader Msg → Pb.LogType → Z → result Pb.LogTreeHash;
}.

Section log_tree_hash.
Context {Msg : Type} `{!LogReads Msg}.
Context {Store : Type} `{!KV.Substrate Msg Store}.

(** The body given to [ExecuteReadOnly] in [LogTreeHash]; its value is
    what it leaves in [rv]. *)
Definition LogTreeHash_body (req : Pb.LogTreeHashRequest) (kr : KV.KeyReader Msg)
    : result Pb.LogTreeHashResponse :=
  head ← lookupLogTreeHead kr (Pb.LogType_ (Pb.Log req));
  (* Do we have it already? *)
  if bool_decide (Pb.TreeSize req = 0)
     || bool_decide (Pb.TreeSize req = Pb.RespTreeSize head) then Ok head
  (* Are we asking for something silly? *)
  else if bool_decide (Pb.TreeSize req > Pb.RespTreeSize head) then
    Fail ErrInvalidTreeRange
  else
    m ← lookupLogRootHashBySize kr (Pb.LogType_ (Pb.Log req)) (Pb.TreeSize req);
    Ok {| Pb.RespTreeSize := Pb.TreeSize req; Pb.RootHash := Pb.Mth m |}.

(** [func (s *localServiceImpl) LogTreeHash(ctx context.Context,
    req *pb.LogTreeHashRequest)], returning the response or an error;
    [s.Reader] is the store. *)
Definition LogTreeHash (st : Store) (req : Pb.LogTreeHashRequest)
    : result Pb.LogTreeHashResponse :=
  match verifyAccessForLogOperation (Pb.Log req) with
  | Some err => Fail err
  | None =>
      if bool_decide (Pb.TreeSize req < 0) then Fail ErrInvalidTreeRange
      else
        match logBucket (Pb.Log req) with
        | Fail _ => Fail ErrInvalidRequest
        | Ok ns => KV.ExecuteReadOnly st ns (LogTreeHash_body req)
        end
  end.

End log_tree_hash.

(** [MutatorService] as [LogCreate] uses it: [QueueMutation(mut)] gives a
    promise or an error, and the promise's [WaitUntilDone()] an error or
    [nil]; [S] is the state of the mutator. *)
Class MutatorService (S Promise : Type) : Type := {
  QueueMutation : S → Pb.Mutation → S * result Promise;
  WaitUntilDone : S → Promise → S * option error;
}.

Section log_create.
Context {S Promise : Type} `{!MutatorService S Promise}.

(** [func (s *LocalService) LogCreate(ctx context.Context,
    req *pb.LogCreateRequest)], returning the response or an error; the access
    check [verifyAccessForLog(req.Log, pb.Permission_PERM_LOG_CREATE)] is
    not among the sources and is given. *)
Definition LogCreate (verifyAccessForLog : Pb.LogRef → option error)
    (s : S) (req : Pb.LogCreateRequest) : S * result Pb.LogCreateResponse :=
  match verifyAccessForLog (Pb.CreateLog req) with
  | Some err => (s, Fail err)
  | None =>
      if bool_decide (Pb.LogType_ (Pb.CreateLog req) ≠ Pb.STRUCT_TYPE_LOG) then
        (s, Fail ErrInvalidRequest)
      else if bool_decide (String.length (Pb.Name (Pb.CreateLog req)) = 0%nat) then
        (s, Fail ErrInvalidRequest)
      else
        match QueueMutation s {| Pb.LogCreate := Some req |} with
        | (s, Fail err) => (s, Fail err)
        | (s, Ok promise) =>
            match WaitUntilDone s promise with
            | (s, Some err) => (s, Fail err)
            | (s, None) => (s, Ok Pb.mkLogCreateResponse)
            end
        end
  end.

End log_create.
End Service.

(** ** The map client (client/map.go) *)

Module Client.

(** The functions of Go's library that [parseHeadersForProof] and [Get]
    call on strings: [strings.TrimSpace], [strconv.Atoi],
    [hex.DecodeString] and [http.CanonicalHeaderKey].  The development is
    parametric in them; [asciiLib] below is an instance for ASCII text. *)
Class GoLib : Type := {
  TrimSpace : string → string;
  Atoi : string → result Z;
  DecodeString : string → result bytes;
  CanonicalHeaderKey : string → string;
}.

(** [strings.Split(s, sep)] for a separator of one byte: the pieces between
    the separators, one more than there are separators. *)
Fixpoint Split (sep : ascii) (s : string) : list string :=
  match s with
  | EmptyString => [EmptyString]
  | String c rest =>
      if Ascii.eqb c sep then EmptyString :: Split sep rest
      else
        match Split sep rest with
        | piece :: pieces => String c piece :: pieces
        | [] => [String c EmptyString]
        end
  end.

(** The text before and after the first separator, if there is one. *)
Fixpoint cut (sep : ascii) (s : string) : option (string * string) :=
  match s with
  | EmptyString => None
  | String c rest =>
      if Ascii.eqb c sep then Some (EmptyString, rest)
      else '(before, after) ← cut sep rest; Some (String c before, after)
  end.

(** [strings.SplitN(s, sep, 2)] for a separator of one byte. *)
Definition SplitN2 (sep : ascii) (s : string) : list string :=
  match cut sep s with
  | Some (before, after) => [before; after]
  | None => [s]
  end.

(** A call that returns [(T, error)] or panics at run time. *)
Inductive outcome (A : Type) : Type :=
| Done (r : result A)
| Panic.
Arguments Done {A} r.
Arguments Panic {A}.

(** A [for ... range] loop over [l] whose body updates [a] and may return
    from the function with an error, or panic. *)
Fixpoint forRange {A B : Type} (body : A → B → outcome A) (a : A) (l : list B)
    : outcome A :=
  match l with
  | [] => Done (Ok a)
  | x :: rest =>
      match body a x with
      | Done (Ok a) => forRange body a rest
      | stop => stop
      end
  end.

(** [s[idx] = v] on a slice: an index outside [0, len(s)) panics. *)
Definition sliceStore {A : Type} (s : list A) (idx : Z) (v : A) : option (list A) :=
  if bool_decide (0 ≤ idx < Z.of_nat (length s)) then Some (<[Z.to_nat idx:=v]> s)
  else None.

(** [http.Header], a [map[string][]string]. *)
Abbreviation Header := (gmap string (list string)).

Section client.
Context `{!GoLib}.

(** The body of the inner loop of [parseHeadersForProof], for one
    comma-separated piece [commad] of a header line.  An entry of [prv] is
    [None] while it is the [nil] slice [make] put there. *)
Definition parseEntry (prv : list (option bytes)) (commad : string)
    : outcome (list (option bytes)) :=
  match SplitN2 "/" commad with
  | [bits0; bits1] =>
      match Atoi (TrimSpace bits0) with
      | Fail err => Done (Fail err)
      | Ok idx =>
          match DecodeString (TrimSpace bits1) with
          | Fail err => Done (Fail err)
          | Ok bs =>
              if bool_decide (idx < 256) then
                match sliceStore prv idx (Some bs) with
                | Some prv => Done (Ok prv)
                | None => Panic
                end
              else Done (Ok prv)
          end
      end
  | _ => Done (Ok prv)
  end.

(** [func parseHeadersForProof(headers http.Header) ([][]byte, error)] *)
Definition parseHeadersForProof (headers : Header) : outcome (list (option bytes)) :=
  let prv := replicate 256 None in
  match headers !! CanonicalHeaderKey "X-Verified-Proof" with
  | Some actualHeaders =>
      forRange (λ prv h, forRange parseEntry prv (Split "," h)) prv actualHeaders
  | None => Done (Ok prv)
  end.

(** The headers announce the sibling [bs] at the index [i]: a piece of a
    [X-Verified-Proof] line reads [i/hex] with [hex] decoding to [bs]. *)
Definition announced (headers : Header) (i : nat) (bs : bytes) : Prop :=
  ∃ actualHeaders h commad bits0 bits1,
    headers !! CanonicalHeaderKey "X-Verified-Proof" = Some actualHeaders
    ∧ h ∈ actualHeaders
    ∧ commad ∈ Split "," h
    ∧ SplitN2 "/" commad = [bits0; bits1]
    ∧ Atoi (TrimSpace bits0) = Ok (Z.of_nat i)
    ∧ DecodeString (TrimSpace bits1) = Ok bs.

(** [func (h Header) Get(key string) string]: the first value of the
    canonical key, or the empty string. *)
Definition Header_Get (headers : Header) (key : string) : string :=
  match headers !! CanonicalHeaderKey key with
  | Some (v :: _) => v
  | _ => EmptyString
  end.

(** [VerifiableEntryFactory], with the two methods [Get] calls. *)
Record VerifiableEntryFactory (Entry : Type) : Type := mkFactory {
  Format : string;
  CreateFromBytes : bytes → result Entry;
}.
Arguments Format {Entry} _.
Arguments CreateFromBytes {Entry} _ _.

(** [type MapInclusionProof struct] *)
Record MapInclusionProof (Entry : Type) : Type := mkMapInclusionProof {
  Value : Entry;
  TreeSize : Z;
  AuditPath : list (option bytes);
  Key : bytes;
}.
Arguments mkMapInclusionProof {Entry} _ _ _ _.
Arguments Value {Entry} _.
Arguments TreeSize {Entry} _.
Arguments AuditPath {Entry} _.
Arguments Key {Entry} _.

(** [func (self *verifiableMapImpl) Get(key []byte, treeSize int64,
    factory VerifiableEntryFactory)], returning the proof or an error.
    [MakeRequest] is [self.Client.MakeRequest] for a method and a path,
    without data or request headers; it answers with the body and the
    response headers. *)
Definition Get {Entry : Type}
    (MakeRequest : string → string → result (bytes * Header))
    (key : bytes) (treeSize : Z) (factory : VerifiableEntryFactory Entry)
    : outcome (MapInclusionProof Entry) :=
  match MakeRequest "GET"
          ("/tree/" +:+ pretty treeSize +:+ "/key/h/"
           +:+ Hex.EncodeToString key +:+ Format factory) with
  | Fail err => Done (Fail err)
  | Ok (value, headers) =>
      match parseHeadersForProof headers with
      | Panic => Panic
      | Done (Fail err) => Done (Fail err)
      | Done (Ok prv) =>
          match CreateFromBytes factory value with
          | Fail err => Done (Fail err)
          | Ok rv =>
              match Atoi (Header_Get headers "X-Verified-TreeSize") with
              | Fail err => Done (Fail err)
              | Ok vts =>
                  Done (Ok {| Value := rv; TreeSize := vts;
                              AuditPath := prv; Key := key |})
              end
          end
      end
  end.

End client.

Arguments Format {Entry} _.
Arguments CreateFromBytes {Entry} _ _.
Arguments mkMapInclusionProof {Entry} _ _ _ _.
Arguments Value {Entry} _.
Arguments TreeSize {Entry} _.
Arguments AuditPath {Entry} _.
Arguments Key {Entry} _.

(** *** Go's string functions on ASCII text *)

Definition isSpace (c : ascii) : bool :=
  let n := N_of_ascii c in ((9 <=? n)%N && (n <=? 13)%N) || (n =? 32)%N.

Fixpoint trimLeft (s : string) : string :=
  match s with
  | String c rest => if isSpace c then trimLeft rest else s
  | EmptyString => EmptyString
  end.

Definition isDigit (c : ascii) : bool :=
  let n := N_of_ascii c in (48 <=? n)%N && (n <=? 57)%N.

(** The value of a string of decimal digits, read after [acc]. *)
Fixpoint digits (acc : Z) (s : string) : option Z :=
  match s with
  | EmptyString => Some acc
  | String c rest =>
      if isDigit c then digits (acc * 10 + Z.of_N (N_of_ascii c - 48)) rest
      else None
  end.

Definition inInt (z : Z) : result Z :=
  if bool_decide (- 2 ^ 63 ≤ z < 2 ^ 63) then Ok z
  else Fail (ErrExternal "strconv.Atoi: value out of range").

Definition atoi (s : string) : result Z :=
  let syntax := Fail (ErrExternal "strconv.Atoi: invalid syntax") in
  match s with
  | EmptyString => syntax
  | String "-" (String c rest) =>
      match digits 0 (String c rest) with
      | Some z => inInt (- z)
      | None => syntax
      end
  | String "+" (String c rest) =>
      match digits 0 (String c rest) with
      | Some z => inInt z
      | None => syntax
      end
  | _ =>
      match digits 0 s with
      | Some z => inInt z
      | None => syntax
      end
  end.

Definition upper (c : ascii) : ascii :=
  let n := N_of_ascii c in
  if (97 <=? n)%N && (n <=? 122)%N then ascii_of_N (n - 32) else c.

Definition lower (c : ascii) : ascii :=
  let n := N_of_ascii c in
  if (65 <=? n)%N && (n <=? 90)%N then ascii_of_N (n + 32) else c.

(** Upper case at the start and after each ["-"], lower case elsewhere. *)
Fixpoint canonical (start : bool) (s : string) : string :=
  match s with
  | EmptyString => EmptyString
  | String c rest =>
      String (if start then upper c else lower c)
             (canonical (Ascii.eqb c "-") rest)
  end.

(** An instance of [GoLib] that agrees with Go's library on ASCII text (on
    header keys: on those made of letters, digits and ["-"]). *)
Definition asciiLib : GoLib := {|
  TrimSpace := λ s, String.rev (trimLeft (String.rev (trimLeft s)));
  Atoi := atoi;
  DecodeString := Hex.DecodeString;
  CanonicalHeaderKey := canonical true;
|}.

(** A factory for raw entries, a transport that answers every request with
    the same body and headers, and the headers of an answer whose proof
    has the siblings 1 and 3 and an entry beyond the path. *)
Definition rawFactory : VerifiableEntryFactory bytes :=
  {| Format := EmptyString; CreateFromBytes := λ b, Ok b |}.

Definition answering (value : bytes) (headers : Header)
    : string → string → result (bytes * Header) :=
  λ _ _, Ok (value, headers).

Definition sampleHeaders : Header :=
  {[ "X-Verified-Proof" := ["1/ab, 3/cdEF ,300/00"];
     "X-Verified-Treesize" := ["7"] ]}.

End Client.

(** ** An in-memory substrate and a small log engine, to run the model *)

Module Mem.

(** Modelled from the spec: the KV substrate (§4.A) as an in-memory map
    from namespace, bucket and key to the value's bytes.  A read-only scope
    reads the store as it is; [Get] of an absent key is [ErrNoSuchKey]; a
    [Set] overwrites and never fails. *)
Definition lookup (st : gmap (bytes * bytes * bytes) bytes) (ns bucket key : bytes)
    : result bytes :=
  match st !! (ns, bucket, key) with
  | Some v => Ok v
  | None => Fail ErrNoSuchKey
  end.

#[global] Instance substrate : KV.Substrate bytes (gmap (bytes * bytes * bytes) bytes) := {|
  KV.snapshot := λ st ns, Ok (lookup st ns);
  KV.txGet := lookup;
  KV.txSet := λ st ns bucket key v, (<[(ns, bucket, key):=v]> st, None);
|}.

#[global] Existing Instance rawProto.

Definition byteOf (n : Z) : byte :=
  default "000"%byte (Byte.of_N (Z.to_N (n `mod` 256))).

(** A size as a big-endian 64-bit counter (§6, persisted state layout). *)
Definition encodeSize (n : Z) : bytes :=
  (λ i, byteOf (Z.shiftr n (8 * i))) <$> [7; 6; 5; 4; 3; 2; 1; 0].

Definition decodeSize (b : bytes) : Z :=
  foldl (λ acc x, acc * 256 + Z.of_N (Byte.to_N x)) 0 b.

Definition bucket (name : string) : bytes := list_byte_of_string name.

(** The mutations of the test engine: a log append, and a mutation the
    applier does not implement. *)
Inductive mutation : Type :=
| LogAdd (entry : bytes)
| Unsupported.

(** Modelled from the spec: a test double for the engine the batch
    mutator calls, after the append of §4.C.  A log append first looks the
    entry up in the leaf index: an entry already there leaves the size as
    it is and nothing is written (the duplicate-leaf policy of §3); a new
    one is stored under its own bytes, indexed at the current size, and
    grows the log by one.  The size record is [meta/size], absent for an
    empty object. *)
#[global] Instance engine : Batch.Engine bytes mutation := {|
  Batch.ApplyMutation := λ size m,
    match m with
    | LogAdd entry =>
        KV.CallGet (bucket "index_leaf") entry (λ r,
          match r with
          | Ok _ => KV.Return size
          | Fail ErrNoSuchKey =>
              KV.CallSet (bucket "entry") entry entry (λ err,
                match err with
                | Some e => KV.Raise e
                | None =>
                    KV.CallSet (bucket "index_leaf") entry (encodeSize size) (λ err,
                      match err with
                      | Some e => KV.Raise e
                      | None => KV.Return (size + 1)
                      end)
                end)
          | Fail e => KV.Raise e
          end)
    | Unsupported => KV.Raise (ErrExternal "not implemented")
    end;
  Batch.readObjectSize := λ kr,
    match kr (bucket "meta") (bucket "size") with
    | Ok b => Ok (decodeSize b)
    | Fail ErrNoSuchKey => Ok 0
    | Fail e => Fail e
    end;
  Batch.writeObjectSize := λ size,
    KV.CallSet (bucket "meta") (bucket "size") (encodeSize size) (λ err,
      match err with
      | Some e => KV.Raise e
      | None => KV.Return ()
      end);
|}.

(** The applier of the instant mutator, on the same engine: it reads the
    size record, applies the mutation and writes the size. *)
#[global] Instance applier : Instant.Applier bytes mutation := λ m,
  KV.CallGet (bucket "meta") (bucket "size") (λ r,
    match r with
    | Ok b =>
        KV.bind (Batch.ApplyMutation (decodeSize b) m) Batch.writeObjectSize
    | Fail ErrNoSuchKey =>
        KV.bind (Batch.ApplyMutation 0 m) Batch.writeObjectSize
    | Fail e => KV.Raise e
    end).

(** Test doubles for what [LogTreeHash] calls: every access is allowed, a
    log's namespace is its name (a log without a name has none), the head
    is the record [meta/head] (the size, then the root hash), absent for an
    empty log, and the root of a size is the record under [root] and the
    size. *)
#[global] Instance logReads : Service.LogReads bytes := {|
  Service.verifyAccessForLogOperation := λ _, None;
  Service.logBucket := λ log,
    match Pb.Name log with
    | EmptyString => Fail ErrInvalidRequest
    | name => Ok (list_byte_of_string name)
    end;
  Service.lookupLogTreeHead := λ kr _,
    match kr (bucket "meta") (bucket "head") with
    | Ok b => Ok {| Pb.RespTreeSize := decodeSize (take 8 b); Pb.RootHash := drop 8 b |}
    | Fail ErrNoSuchKey => Ok {| Pb.RespTreeSize := 0; Pb.RootHash := [] |}
    | Fail e => Fail e
    end;
  Service.lookupLogRootHashBySize := λ kr _ size,
    match kr (bucket "root") (encodeSize size) with
    | Ok b => Ok {| Pb.Mth := b |}
    | Fail e => Fail e
    end;
|}.

(** A test double for the mutator [LogCreate] queues on: it keeps the
    mutations queued, and a promise is done without error unless the log
    queued for creation is in [taken]. *)
Definition queueing (taken : list string)
    : Service.MutatorService (list Pb.Mutation) Pb.Mutation := {|
  Service.QueueMutation := λ q m, (q ++ [m], Ok m);
  Service.WaitUntilDone := λ q m,
    match Pb.LogCreate m with
    | Some req =>
        if bool_decide (Pb.Name (Pb.CreateLog req) ∈ taken)
        then (q, Some (ErrExternal "already exists"))
        else (q, None)
    | None => (q, None)
    end;
|}.

(** Items that all arrive in time. *)
Definition timely (l : list (Batch.chObject mutation)) : Batch.arrivals mutation :=
  (λ o, (false, o)) <$> l.

(** Two logs, an append to each, and a mutation the engine refuses. *)
Definition logA : bytes := list_byte_of_string "log-a".
Definition logB : bytes := list_byte_of_string "log-b".

Definition addX : Batch.chObject mutation :=
  {| Batch.ns := logA; Batch.mut := LogAdd (list_byte_of_string "x") |}.
Definition addY : Batch.chObject mutation :=
  {| Batch.ns := logB; Batch.mut := LogAdd (list_byte_of_string "y") |}.
Definition refused : Batch.chObject mutation :=
  {| Batch.ns := logA; Batch.mut := Unsupported |}.

Definition conf10 : Batch.BatchMutatorConfig :=
  {| Batch.Timeout := 1000; Batch.BatchSize := 10; Batch.BufferSize := 10 |}.


(** A store where a log of three entries has the head [(3, root3)] and
    the roots of the sizes 1 and 2 on record. *)
Definition root (n : Z) : bytes := replicate 32 (byteOf n).

Definition storeLog3 : gmap (bytes * bytes * bytes) bytes :=
  {[ (logA, bucket "meta", bucket "head") := encodeSize 3 ++ root 3;
     (logA, bucket "root", encodeSize 1) := root 1;
     (logA, bucket "root", encodeSize 2) := root 2 ]}.

Definition logARef : Pb.LogRef :=
  {| Pb.Name := "log-a"; Pb.LogType_ := Pb.STRUCT_TYPE_LOG |}.

End Mem.

(** ** Statements of the specification that the code is compared with *)

Module Spec.
Section spec.
Context {Msg : Type} `{!Proto Msg}.
Context {Mutation : Type} `{!Batch.Engine Msg Mutation}.
Context {Store : Type} `{!KV.Substrate Msg Store}.

(** §4.F, failure: "the promises for all items in that batch fail with the
    first error".  For a mutation queued on an empty channel, which is
    then the seed of its batch: when the batch fails with an error, that
    error is what [QueueMutation] gave its caller. *)
Definition promise_fails_with_batch (conf : Batch.BatchMutatorConfig) : Prop :=
  ∀ (st st' : Store) ns (mut : Mutation) evs err,
    Batch.consume conf st ((λ o, (false, o)) <$> (Batch.QueueMutation [] ns mut).1)
    = (st', evs, Batch.Fatal err) →
    (Batch.QueueMutation [] ns mut).2 = Some err.


(** §4.F: the instant mutator "implements the same interface with
    [BatchSize = 1] and [Timeout = 0]".  What the caller is told about a
    mutation, by the promise of the instant mutator and by the batch
    mutator's [QueueMutation], is the same. *)
Definition instant_as_batch_of_one `{!Instant.Applier Msg Mutation} : Prop :=
  ∀ (st : Store) ns (mut : Mutation),
    Instant.WaitUntilDone (Instant.QueueMutation st ns mut).2.1
    = (Batch.QueueMutation [] ns mut).2.

End spec.

Section spec_log.
Context {Msg : Type} `{!Service.LogReads Msg}.
Context {Store : Type} `{!KV.Substrate Msg Store}.

(** §4.C and S1: [LogTreeHash(0)] gives size 0 and the all-zero hash of 32
    bytes, for every log whose head can be read, empty or not. *)
Definition tree_hash_zero_is_empty : Prop :=
  ∀ (st : Store) log ns kr head,
    Service.verifyAccessForLogOperation log = None →
    Service.logBucket log = Ok ns →
    KV.snapshot st ns = Ok kr →
    Service.lookupLogTreeHead kr (Pb.LogType_ log) = Ok head →
    Service.LogTreeHash st {| Pb.Log := log; Pb.TreeSize := 0 |}
    = Ok {| Pb.RespTreeSize := 0; Pb.RootHash := replicate 32 "000"%byte |}.

End spec_log.
End Spec.

(** ** The proof headers, piece by piece *)

Module ProofHeaders.
Section pieces.
Context `{!Client.GoLib}.
Import Client.

(** The comma-separated pieces of the [X-Verified-Proof] lines, in the
    order the two loops of [parseHeadersForProof] meet them. *)
Definition pieces (headers : Header) : list string :=
  match headers !! CanonicalHeaderKey "X-Verified-Proof" with
  | Some actualHeaders => actualHeaders ≫= Split ","
  | None => []
  end.

(** What one piece says: nothing when it has no ["/"]; else the index and
    the sibling it announces, or the error of reading them. *)
Definition entryOf (commad : string) : option (result (Z * bytes)) :=
  match SplitN2 "/" commad with
  | [bits0; bits1] =>
      Some (idx ← Atoi (TrimSpace bits0);
            bs ← DecodeString (TrimSpace bits1);
            Ok (idx, bs))
  | _ => None
  end.

(** The sibling of the last piece of [l] that announces the index [i]. *)
Definition lastEntry (l : list string) (i : Z) : option bytes :=
  last (omap (λ commad,
                match entryOf commad with
                | Some (Ok (idx, bs)) => if bool_decide (idx = i) then Some bs else None
                | _ => None
                end) l).

(** A piece that neither fails to read nor has a negative index. *)
Definition harmless (commad : string) : Prop :=
  match entryOf commad with
  | Some (Ok (idx, _)) => 0 ≤ idx
  | Some (Fail _) => False
  | None => True
  end.

End pieces.
End ProofHeaders.

(** ** The map client's writes (client/map.go) *)

Module ClientWrites.

(** [UploadableEntry], with its two methods. *)
Record UploadableEntry : Type := mkUploadableEntry {
  DataForUpload : result bytes;
  Format : string;
}.

(** [MerkleTreeLeaf], with its method [LeafHash]. *)
Record MerkleTreeLeaf : Type := mkMerkleTreeLeaf { LeafHash : result bytes }.

(** [type AddEntryResponse struct] *)
Record AddEntryResponse : Type := mkAddEntryResponse { EntryLeafHash : bytes }.

(** What the writes call and the sources do not hold:
    [self.Client.MakeRequest(method, path, data, headers)], with [None] for
    a [nil] body, and [json.Unmarshal] into a [JSONAddEntryResponse], of
    which the [Hash] is kept. *)
Class Wire : Type := {
  MakeRequest : string → string → option bytes → list (string * string)
                → result (bytes * Client.Header);
  unmarshalAddEntry : bytes → result bytes;
}.

(** The tail of [Set], [Update] and [Delete]: the answer's body decoded
    into the leaf hash of the mutation log entry. *)
Definition addEntryResponse `{!Wire} (r : result (bytes * Client.Header))
    : result AddEntryResponse :=
  '(contents, _) ← r;
  hash ← unmarshalAddEntry contents;
  Ok {| EntryLeafHash := hash |}.

(** [func (self *verifiableMapImpl) Set(key []byte, value UploadableEntry)] *)
Definition Set_ `{!Wire} (key : bytes) (value : UploadableEntry)
    : result AddEntryResponse :=
  data ← DataForUpload value;
  addEntryResponse
    (MakeRequest "PUT" ("/key/h/" +:+ Hex.EncodeToString key +:+ Format value)
       (Some data) []).

(** [func (self *verifiableMapImpl) Update(key []byte, value UploadableEntry,
    previousLeaf MerkleTreeLeaf)] *)
Definition Update `{!Wire} (key : bytes) (value : UploadableEntry)
    (previousLeaf : MerkleTreeLeaf) : result AddEntryResponse :=
  data ← DataForUpload value;
  prevLF ← LeafHash previousLeaf;
  addEntryResponse
    (MakeRequest "PUT" ("/key/h/" +:+ Hex.EncodeToString key +:+ Format value)
       (Some data) [("X-Previous-LeafHash", Hex.EncodeToString prevLF)]).

(** [func (self *verifiableMapImpl) Delete(key []byte)] *)
Definition Delete `{!Wire} (key : bytes) : result AddEntryResponse :=
  addEntryResponse
    (MakeRequest "DELETE" ("/key/h/" +:+ Hex.EncodeToString key) None []).

End ClientWrites.

(** ** More inputs to run the model on *)

Module Samples.

(** A configuration without a batch size, as the zero value of the
    struct has it. *)
Definition conf0 : Batch.BatchMutatorConfig :=
  {| Batch.Timeout := 1000; Batch.BatchSize := 0; Batch.BufferSize := 10 |}.

(** A configuration with batches of one. *)
Definition conf1 : Batch.BatchMutatorConfig :=
  {| Batch.Timeout := 0; Batch.BatchSize := 1; Batch.BufferSize := 1 |}.

Definition byteOfNat (n : nat) : byte := Mem.byteOf (Z.of_nat n).

(** A second append to the log of [Mem.addX]. *)
Definition addZ : Batch.chObject Mem.mutation :=
  {| Batch.ns := Mem.logA; Batch.mut := Mem.LogAdd (list_byte_of_string "z") |}.

(** Proof headers that announce the sibling 1 twice, on two lines. *)
Definition twiceHeaders : Client.Header :=
  {[ "X-Verified-Proof" := ["1/ab, 2/cd"; "1/ef"] ]}.

(** Proof headers with a negative index after a good entry. *)
Definition negativeHeaders : Client.Header :=
  {[ "X-Verified-Proof" := ["1/ab,-1/cd"] ]}.

(** An entry to upload as raw bytes, and a leaf with its hash. *)
Definition rawEntry : ClientWrites.UploadableEntry :=
  {| ClientWrites.DataForUpload := Ok (list_byte_of_string "v");
     ClientWrites.Format := EmptyString |}.

Definition leaf : ClientWrites.MerkleTreeLeaf :=
  {| ClientWrites.LeafHash := Ok (list_byte_of_string "h") |}.

(** A wire that answers every request with the path it was sent to and the
    number of request headers, and takes the answer's body for the hash. *)
Definition echoWire : ClientWrites.Wire := {|
  ClientWrites.MakeRequest := λ method path data headers,
    Ok (list_byte_of_string path ++ [byteOfNat (length headers)], ∅);
  ClientWrites.unmarshalAddEntry := λ contents, Ok contents;
|}.

End Samples.


(** * Properties *)

(** ** Hexadecimal encoding *)

Section hex_facts.
Import Hex.

Lemma DecodeByte_EncodeByte v :
  ∃ hi lo, EncodeByte v = String hi (String lo EmptyString)
           ∧ DecodeByte hi lo = Some v ∧ hi ≠ "|"%char.
Proof. destruct v; do 2 eexists; (split; [reflexivity|split; [reflexivity|discriminate]]). Qed.

Lemma DecodeString_EncodeToString src :
  DecodeString (EncodeToString src) = Ok src.
Proof.
  induction src as [|v rest IH]; [done|].
  destruct (DecodeByte_EncodeByte v) as (hi & lo & E & D & _).
  cbn [EncodeToString]. rewrite E.
  change (DecodeString (String hi (String lo (EncodeToString rest))) = Ok (v :: rest)).
  cbn [DecodeString]. rewrite D, IH. done.
Qed.

Lemma EncodeToString_inj a b :
  EncodeToString a = EncodeToString b → a = b.
Proof.
  intros H. assert (Ok a = Ok b) as [=]; [|done].
  by rewrite <- !DecodeString_EncodeToString, H.
Qed.

End hex_facts.

(** ** The overlay: read-your-writes and replay *)

Section overlay_facts.
Context {Msg : Type} `{!Proto Msg}.
Import Overlay.
#[local] Abbreviation op := (Overlay.op Msg).
#[local] Abbreviation KeyReader := (KV.KeyReader Msg).
#[local] Abbreviation mapNoLockDB := (Overlay.mapNoLockDB Msg).

Lemma append_two (a b : ascii) (s : string) :
  String a (String b EmptyString) +:+ s = String a (String b s).
Proof. reflexivity. Qed.

Lemma append_nil_l (s : string) : EmptyString +:+ s = s.
Proof. reflexivity. Qed.

Lemma string_app_assoc (s t u : string) : (s +:+ t) +:+ u = s +:+ (t +:+ u).
Proof.
  induction s as [|a s IH]; [done|].
  change (String a ((s +:+ t) +:+ u) = String a (s +:+ (t +:+ u))).
  by rewrite IH.
Qed.

Lemma EncodeByte_append_inj v w s t :
  (Hex.EncodeByte v +:+ s = Hex.EncodeByte w +:+ t) → v = w ∧ s = t.
Proof.
  destruct (DecodeByte_EncodeByte v) as (h1 & l1 & E1 & D1 & _).
  destruct (DecodeByte_EncodeByte w) as (h2 & l2 & E2 & D2 & _).
  rewrite E1, E2, !append_two. intros [= -> -> ->]. split; [congruence|done].
Qed.

Lemma EncodeByte_not_bar v s t : Hex.EncodeByte v +:+ s ≠ "|" +:+ t.
Proof.
  destruct (DecodeByte_EncodeByte v) as (h & l & E & _ & N).
  rewrite E, append_two. intros [= -> _]. done.
Qed.

(** Distinct bucket/key pairs never share an overlay key: a hex string has
    no ["|"] in it. *)
Lemma mapKey_inj b k b' k' : mapKey b k = mapKey b' k' → b = b' ∧ k = k'.
Proof.
  unfold mapKey. revert b'. induction b as [|v b IH]; intros [|v' b'] E;
    cbn [Hex.EncodeToString] in E; rewrite ?string_app_assoc, ?append_nil_l in E.
  - injection E as E. by apply EncodeToString_inj in E.
  - symmetry in E. by apply EncodeByte_not_bar in E.
  - by apply EncodeByte_not_bar in E.
  - apply EncodeByte_append_inj in E as [-> E].
    apply IH in E as [-> ->]. done.
Qed.

#[local] Instance mapKey_pair_inj : Inj (=) (=) (λ bk : (bytes * bytes)%type, mapKey bk.1 bk.2).
Proof. intros [b k] [b' k'] E. cbn in E. apply mapKey_inj in E as [-> ->]. done. Qed.

Lemma op_eta (o : op) : {| Key := Key o; Bucket := Bucket o; Value := Value o |} = o.
Proof. by destruct o. Qed.

(** One accepted [Set]: the bytes go to the map, the operation to the end
    of the replay list, the parent stays. *)
Lemma Set_accepted m o b :
  Marshal (Value o) = Ok b →
  mapNoLockDB_Set m (Bucket o) (Key o) (Value o)
  = ({| M := <[mapKey (Bucket o) (Key o) := b]> (M m);
        Parent := Parent m; L := L m ++ [o] |}, None).
Proof. intros E. unfold mapNoLockDB_Set. by rewrite E, op_eta. Qed.

(** A refused [Set] changes nothing and returns the marshalling error. *)
Lemma Set_refused m o e :
  Marshal (Value o) = Fail e →
  mapNoLockDB_Set m (Bucket o) (Key o) (Value o) = (m, Some e).
Proof. intros E. unfold mapNoLockDB_Set. by rewrite E. Qed.

Lemma SetAll_snoc m calls o :
  SetAll m (calls ++ [o])
  = (mapNoLockDB_Set (SetAll m calls) (Bucket o) (Key o) (Value o)).1.
Proof. unfold SetAll. by rewrite foldl_app. Qed.

Lemma lastSet_snoc calls o bucket key :
  lastSet (calls ++ [o]) bucket key
  = if addresses bucket key o && accepted o then Some o
    else lastSet calls bucket key.
Proof.
  unfold lastSet. rewrite List.filter_app. cbn [List.filter].
  destruct (addresses bucket key o && accepted o).
  - by rewrite last_snoc.
  - by rewrite app_nil_r.
Qed.

Lemma lastSet_accepted calls bucket key o :
  lastSet calls bucket key = Some o →
  Bucket o = bucket ∧ Key o = key ∧ ∃ b, Marshal (Value o) = Ok b.
Proof.
  induction calls as [|c calls IH] using rev_ind; [done|].
  rewrite lastSet_snoc.
  destruct (addresses bucket key c && accepted c) eqn:E; [|done].
  intros [= ->]. apply andb_prop in E as [E1 E2].
  apply bool_decide_eq_true in E1 as [-> ->].
  unfold accepted in E2. destruct (Marshal (Value o)) as [b|e]; [eauto|done].
Qed.

(** What the overlay holds after a history of [Set] calls. *)
Lemma SetAll_state (p : KeyReader) (calls : list op) :
  let m := SetAll (newWrapper p) calls in
  Parent m = p
  ∧ L m = List.filter accepted calls
  ∧ ∀ bucket key,
      M m !! mapKey bucket key
      = o ← lastSet calls bucket key;
        match Marshal (Value o) with Ok b => Some b | Fail _ => None end.
Proof.
  induction calls as [|c calls IH] using rev_ind; [done|].
  destruct IH as (IHp & IHl & IHm). cbn zeta.
  rewrite SetAll_snoc, List.filter_app. cbn [List.filter]. unfold accepted at 2.
  destruct (Marshal (Value c)) as [b|e] eqn:E.
  - rewrite (Set_accepted _ _ _ E). cbn [fst M Parent L].
    split; [done|]. split; [by rewrite IHl|].
    intros bucket key. rewrite lastSet_snoc. unfold accepted, addresses.
    rewrite E, andb_true_r. case_bool_decide as A.
    + destruct A as [<- <-]. rewrite lookup_insert_eq. cbn. by rewrite E.
    + rewrite lookup_insert_ne; [apply IHm|].
      intros [? ?]%mapKey_inj. by apply A.
  - rewrite (Set_refused _ _ _ E). cbn [fst].
    split; [done|]. split; [by rewrite IHl, app_nil_r|].
    intros bucket key. rewrite lastSet_snoc. unfold accepted at 1.
    rewrite E, andb_false_r. apply IHm.
Qed.

(** C6.  Within a batch the overlay gives read-your-writes.  After any
    history of [Set] calls on a fresh overlay over the parent reader [p]:
    the parent is still [p] ([Set] never touches it), the replay list holds
    exactly the accepted operations in call order, and [Get] on a
    bucket/key pair answers from the most recent accepted [Set] to that
    pair (decoding the bytes stored for it, which is the value set itself
    when protobuf round-trips) and otherwise asks the parent. *)
Theorem overlay_read_your_writes (p : KeyReader) (calls : list op)
    (bucket key : bytes) :
  let m := SetAll (newWrapper p) calls in
  Parent m = p
  ∧ L m = List.filter accepted calls
  ∧ mapNoLockDB_Get m bucket key
    = match lastSet calls bucket key with
      | Some o => Marshal (Value o) ≫= Unmarshal
      | None => p bucket key
      end
  ∧ (ProtoRoundTrip Msg → ∀ o, lastSet calls bucket key = Some o →
     mapNoLockDB_Get m bucket key = Ok (Value o)).
Proof.
  destruct (SetAll_state p calls) as (Hp & Hl & Hm). cbn zeta.
  split; [done|]. split; [done|].
  assert (mapNoLockDB_Get (SetAll (newWrapper p) calls) bucket key
          = match lastSet calls bucket key with
            | Some o => Marshal (Value o) ≫= Unmarshal
            | None => p bucket key
            end) as G.
  { unfold mapNoLockDB_Get. rewrite Hm, Hp.
    destruct (lastSet calls bucket key) as [o|] eqn:E; [|done].
    apply lastSet_accepted in E as (_ & _ & b & E). cbn. by rewrite E. }
  split; [done|]. intros RT o E. rewrite G, E.
  apply lastSet_accepted in E as (_ & _ & b & E). rewrite E. cbn.
  by apply RT.
Qed.

(** The replay loop on any key writer: it sets the operations in order
    and stops at the first [Set] that fails, else goes on with [k]. *)
Lemma run_replay {W} (kw : KV.KeyWriter Msg W) l k w :
  KV.run kw (replay l k) w
  = match l with
    | [] => KV.run kw k w
    | o :: rest =>
        match KV.kwSet kw w (Bucket o) (Key o) (Value o) with
        | (w', Some e) => (w', Fail e)
        | (w', None) => KV.run kw (replay rest k) w'
        end
    end.
Proof.
  destruct l as [|o rest]; [done|]. cbn.
  by destruct (KV.kwSet kw w (Bucket o) (Key o) (Value o)) as [w' [e|]].
Qed.

Lemma run_replay_snoc {W} (kw : KV.KeyWriter Msg W) l o w :
  KV.run kw (replay (l ++ [o]) (KV.Return ())) w
  = match KV.run kw (replay l (KV.Return ())) w with
    | (w', Ok _) =>
        match KV.kwSet kw w' (Bucket o) (Key o) (Value o) with
        | (w'', Some e) => (w'', Fail e)
        | (w'', None) => (w'', Ok ())
        end
    | (w', Fail e) => (w', Fail e)
    end.
Proof.
  revert w. induction l as [|c l IH]; intros w.
  - cbn. by destruct (KV.kwSet kw w (Bucket o) (Key o) (Value o)) as [w' [e|]].
  - cbn [app]. rewrite !(run_replay kw (c :: _)).
    destruct (KV.kwSet kw w (Bucket c) (Key c) (Value c)) as [w' [e|]]; [done|].
    apply IH.
Qed.

(** C8.  For every history of [Set] calls on a fresh overlay, replaying
    the overlay's replay list, in order, into a fresh key-value writer
    succeeds and leaves in it exactly the overlay map's contents (under the
    overlay's key encoding).  Both are decided by the calls, last write
    wins: a bucket/key pair holds, in the writer and in the overlay map
    alike, the bytes of the value of the most recent accepted [Set] to that
    pair, whatever was set to it before, and nothing when no accepted
    [Set] went to it. *)
Theorem replay_reproduces_overlay (p : KeyReader) (calls : list op) :
  let m := SetAll (newWrapper p) calls in
  ∃ kv : gmap (bytes * bytes) bytes,
    KV.run memKV (replay (L m) (KV.Return ())) ∅ = (kv, Ok ())
    ∧ M m = kmap (λ bk : (bytes * bytes)%type, mapKey bk.1 bk.2) kv
    ∧ ∀ bucket key,
        kv !! (bucket, key) = M m !! mapKey bucket key
        ∧ match lastSet calls bucket key with
          | Some o =>
              (∃ b, Marshal (Value o) = Ok b ∧ kv !! (bucket, key) = Some b)
              ∧ (ProtoRoundTrip Msg →
                 KV.kwGet memKV kv bucket key = Ok (Value o))
          | None =>
              kv !! (bucket, key) = None
              ∧ KV.kwGet memKV kv bucket key = Fail ErrNoSuchKey
          end.
Proof.
  cbn zeta.
  assert (∃ kv : gmap (bytes * bytes) bytes,
    KV.run memKV (replay (L (SetAll (newWrapper p) calls)) (KV.Return ())) ∅
    = (kv, Ok ())
    ∧ M (SetAll (newWrapper p) calls)
      = kmap (λ bk : (bytes * bytes)%type, mapKey bk.1 bk.2) kv) as (kv & R & K).
  { induction calls as [|c calls (kv & R & K)] using rev_ind.
    - exists ∅. split; [done|]. cbn. by rewrite kmap_empty.
    - rewrite SetAll_snoc. destruct (Marshal (Value c)) as [b|e] eqn:E.
      + rewrite (Set_accepted _ _ _ E). cbn [fst L M].
        exists (<[(Bucket c, Key c):=b]> kv). rewrite run_replay_snoc, R.
        cbn. rewrite E. split; [done|].
        by rewrite K, (kmap_insert (λ bk : (bytes * bytes)%type, mapKey bk.1 bk.2)).
      + rewrite (Set_refused _ _ _ E). cbn [fst]. by exists kv. }
  exists kv. split; [done|]. split; [done|]. intros bucket key.
  assert (kv !! (bucket, key) = M (SetAll (newWrapper p) calls) !! mapKey bucket key)
    as Same.
  { rewrite K.
    by rewrite (lookup_kmap (λ bk : (bytes * bytes)%type, mapKey bk.1 bk.2) kv
                  (bucket, key)). }
  split; [exact Same|].
  destruct (SetAll_state p calls) as (_ & _ & Hm).
  pose proof (Hm bucket key) as Hm0. rewrite <- Same in Hm0.
  destruct (lastSet calls bucket key) as [o|] eqn:E; cbn in Hm0 |- *.
  - apply lastSet_accepted in E as (_ & _ & b & E). rewrite E in Hm0.
    rewrite Hm0. split; [by exists b|]. intros RT. by apply RT.
  - by rewrite Hm0.
Qed.

End overlay_facts.

(** ** The batch mutator *)

Section batch_facts.
Context {Msg : Type} `{!Proto Msg}.
Context {Mutation : Type} `{!Batch.Engine Msg Mutation}.
Context {Store : Type} `{!KV.Substrate Msg Store}.
Import Batch.
#[local] Abbreviation chObject := (Batch.chObject Mutation).
#[local] Abbreviation arrivals := (Batch.arrivals Mutation).

Lemma bytes_Equal_true a b : bytes_Equal a b = true ↔ a = b.
Proof. unfold bytes_Equal. apply bool_decide_eq_true. Qed.

Lemma bytes_Equal_false a b : bytes_Equal a b = false ↔ a ≠ b.
Proof. unfold bytes_Equal. apply bool_decide_eq_false. Qed.

(** The loop of [handleBatch], one pass unfolded. *)
Lemma handleBatch_loop_unfold {W} (kwi : KV.KeyWriter Msg W)
    (seed obj : chObject) cnt curSize kw acc (ch : arrivals) :
  handleBatch_loop kwi seed obj cnt curSize kw acc ch
  = if negb (bytes_Equal (ns seed) (ns obj)) then
      mkHandled kw ch acc (Ok (curSize, Some seed))
    else
      match KV.run kwi (ApplyMutation curSize (mut obj)) kw with
      | (kw', Fail err) => mkHandled kw' ch (acc ++ [obj]) (Fail err)
      | (kw', Ok curSize') =>
          if wrapInt (cnt - 1) =? 0 then
            mkHandled kw' ch (acc ++ [obj]) (Ok (curSize', None))
          else
            match ch with
            | [] => mkHandled kw' ch (acc ++ [obj]) (Ok (curSize', None))
            | (true, _) :: _ => mkHandled kw' ch (acc ++ [obj]) (Ok (curSize', None))
            | (false, o) :: rest =>
                handleBatch_loop kwi seed o (wrapInt (cnt - 1)) curSize' kw'
                  (acc ++ [obj]) rest
            end
      end.
Proof. destruct ch as [|[[] o] rest]; reflexivity. Qed.

(** The loop never puts anything on the channel. *)
Lemma handleBatch_loop_length {W} (kwi : KV.KeyWriter Msg W)
    (seed obj : chObject) cnt curSize kw acc (ch : arrivals) :
  (length (h_ch (handleBatch_loop kwi seed obj cnt curSize kw acc ch))
   ≤ length ch)%nat.
Proof.
  revert obj cnt curSize kw acc.
  induction ch as [|[late o] rest IH]; intros obj cnt curSize kw acc;
    rewrite handleBatch_loop_unfold;
    destruct (negb (bytes_Equal (ns seed) (ns obj))); [done| |done|].
  - destruct (KV.run kwi (ApplyMutation curSize (mut obj)) kw) as [kw' [sz|e]];
      [|done]. by destruct (wrapInt (cnt - 1) =? 0).
  - destruct (KV.run kwi (ApplyMutation curSize (mut obj)) kw) as [kw' [sz|e]];
      [|done]. destruct (wrapInt (cnt - 1) =? 0); [done|].
    destruct late; [done|]. etrans; [apply IH|]. cbn. lia.
Qed.

(** When the loop hands back a seed for the next pass, it has met an item
    of another namespace.  What it hands back is the seed it was given,
    not that item; the item is no longer on the channel, and it is not
    among the objects applied. *)
Lemma handleBatch_loop_carry {W} (kwi : KV.KeyWriter Msg W)
    (seed obj : chObject) cnt curSize kw acc (ch : arrivals) sz s :
  h_ret (handleBatch_loop kwi seed obj cnt curSize kw acc ch) = Ok (sz, Some s) →
  s = seed
  ∧ ((ns obj ≠ ns seed
      ∧ h_ch (handleBatch_loop kwi seed obj cnt curSize kw acc ch) = ch
      ∧ h_applied (handleBatch_loop kwi seed obj cnt curSize kw acc ch) = acc)
     ∨ ∃ pre foreign,
         ch = pre ++ (false, foreign)
                :: h_ch (handleBatch_loop kwi seed obj cnt curSize kw acc ch)
         ∧ ns foreign ≠ ns seed
         ∧ h_applied (handleBatch_loop kwi seed obj cnt curSize kw acc ch)
           = acc ++ obj :: pre.*2).
Proof.
  revert obj cnt curSize kw acc.
  induction ch as [|[late o] rest IH]; intros obj cnt curSize kw acc;
    rewrite handleBatch_loop_unfold;
    destruct (bytes_Equal (ns seed) (ns obj)) eqn:E; cbn [negb].
  - destruct (KV.run kwi (ApplyMutation curSize (mut obj)) kw) as [kw' [sz'|e]];
      [|done]. by destruct (wrapInt (cnt - 1) =? 0).
  - intros [= -> ->]. split; [done|]. left.
    apply bytes_Equal_false in E. done.
  - destruct (KV.run kwi (ApplyMutation curSize (mut obj)) kw) as [kw' [sz'|e]];
      [|done]. destruct (wrapInt (cnt - 1) =? 0); [done|].
    destruct late; [done|]. intros R.
    destruct (IH _ _ _ _ _ R) as [-> [(N & C & A)|(pre & foreign & C & N & A)]];
      (split; [done|]); right.
    + exists [], o. rewrite C, A. done.
    + exists ((false, o) :: pre), foreign. rewrite A, <- (assoc_L (++)).
      cbn. by rewrite <- C.
  - intros [= -> ->]. split; [done|]. left.
    apply bytes_Equal_false in E. done.
Qed.

(** The same for [handleBatch]: the seed handed back is the one it began
    with, which it has applied first. *)
Lemma handleBatch_carry {W} conf (kwi : KV.KeyWriter Msg W) kw startSize
    (seed : chObject) (ch : arrivals) sz s :
  h_ret (handleBatch conf kwi kw startSize seed ch) = Ok (sz, Some s) →
  s = seed
  ∧ ∃ pre foreign,
      ch = pre ++ (false, foreign) :: h_ch (handleBatch conf kwi kw startSize seed ch)
      ∧ ns foreign ≠ ns seed
      ∧ h_applied (handleBatch conf kwi kw startSize seed ch) = seed :: pre.*2.
Proof.
  unfold handleBatch. intros R.
  destruct (handleBatch_loop_carry _ _ _ _ _ _ _ _ _ _ R)
    as [-> [(N & _)|(pre & foreign & C & N & A)]]; [done|].
  split; [done|]. by exists pre, foreign.
Qed.

(** [consume] comes to an end on every channel content: the fuel of
    [consume] is never used up. *)
Lemma consume_loop_enough fuel conf (st : Store) (ch : arrivals)
    (seed : option chObject) :
  (2 * length ch + match seed with Some _ => 1 | None => 0 end < fuel)%nat →
  (consume_loop fuel conf st ch seed).2 ≠ OutOfFuel.
Proof.
  revert st ch seed. induction fuel as [|fuel IH]; intros st ch seed F; [lia|].
  cbn [consume_loop].
  assert (∀ (sd : chObject) (c : arrivals),
    (2 * length c + 1 < S fuel)%nat →
    (match consume_body conf st sd c with
     | (st, evs, Fail err) => (st, evs, Fatal err)
     | (st, evs, Ok (ch, seed)) =>
         let '(st, evs', out) := consume_loop fuel conf st ch seed in
         (st, evs ++ evs', out)
     end).2 ≠ OutOfFuel) as Body.
  { intros sd c Fc. unfold consume_body, KV.ExecuteReadOnly.
    destruct (KV.snapshot st (ns sd)) as [kr|e]; cbn; [|done].
    unfold readBody. destruct (readObjectSize kr) as [s0|e]; cbn; [|done].
    pose proof (handleBatch_loop_length Overlay.writer sd sd (BatchSize conf)
      s0 (Overlay.newWrapper kr) [] c) as Len.
    pose proof (handleBatch_carry conf Overlay.writer (Overlay.newWrapper kr)
      s0 sd c) as Carry.
    fold (handleBatch conf Overlay.writer (Overlay.newWrapper kr) s0 sd c) in Len.
    destruct (handleBatch conf Overlay.writer (Overlay.newWrapper kr) s0 sd c)
      as [kw' ch' acc' [[sz sd']|e]]; cbn in *; [|done].
    assert (2 * length ch' + match sd' with Some _ => 1 | None => 0 end < fuel)%nat
      as F'.
    { destruct sd' as [s'|]; [|lia].
      destruct (Carry sz s' eq_refl) as (_ & pre & foreign & -> & _).
      rewrite length_app in Fc. cbn in Fc. lia. }
    specialize (IH st ch' sd' F') as IH1.
    destruct (sz >? s0).
    - destruct (KV.ExecuteUpdate st (ns sd) _) as [st' [e|]]; [done|].
      specialize (IH st' ch' sd' F').
      by destruct (consume_loop fuel conf st' ch' sd') as [[? ?] ?].
    - by destruct (consume_loop fuel conf st ch' sd') as [[? ?] ?]. }
  destruct seed as [sd|].
  - apply Body. lia.
  - destruct ch as [|[late sd] rest]; [done|]. cbn [receive].
    apply Body. cbn in F. lia.
Qed.

Theorem consume_terminates conf (st : Store) (ch : arrivals) :
  (consume conf st ch).2 ≠ OutOfFuel.
Proof. apply consume_loop_enough. lia. Qed.

(** [handleBatch] applies the objects it lists, in order and each at the
    size the one before returned, and stops at the first that fails: what
    it returns is what that gives. *)
Lemma applyAll_snoc {W} (kwi : KV.KeyWriter Msg W) kw size (objs : list chObject) obj :
  applyAll kwi kw size (objs ++ [obj])
  = match applyAll kwi kw size objs with
    | (kw', Ok size') => KV.run kwi (ApplyMutation size' (mut obj)) kw'
    | (kw', Fail err) => (kw', Fail err)
    end.
Proof.
  revert kw size. induction objs as [|o objs IH]; intros kw size; cbn.
  - by destruct (KV.run kwi (ApplyMutation size (mut obj)) kw) as [? [?|?]].
  - destruct (KV.run kwi (ApplyMutation size (mut o)) kw) as [? [?|?]]; [|done].
    apply IH.
Qed.

Lemma handleBatch_loop_applyAll {W} (kwi : KV.KeyWriter Msg W) kw0 size0
    (seed obj : chObject) cnt curSize kw acc (ch : arrivals) :
  applyAll kwi kw0 size0 acc = (kw, Ok curSize) →
  applyAll kwi kw0 size0
    (h_applied (handleBatch_loop kwi seed obj cnt curSize kw acc ch))
  = (h_kw (handleBatch_loop kwi seed obj cnt curSize kw acc ch),
     match h_ret (handleBatch_loop kwi seed obj cnt curSize kw acc ch) with
     | Ok (size, _) => Ok size
     | Fail err => Fail err
     end).
Proof.
  revert obj cnt curSize kw acc.
  induction ch as [|[late o] rest IH]; intros obj cnt curSize kw acc A;
    rewrite handleBatch_loop_unfold;
    (destruct (negb (bytes_Equal (ns seed) (ns obj))); [done|]);
    pose proof (applyAll_snoc kwi kw0 size0 acc obj) as S; rewrite A in S;
    destruct (KV.run kwi (ApplyMutation curSize (mut obj)) kw) as [kw' [sz|e]];
    try done.
  - by destruct (wrapInt (cnt - 1) =? 0).
  - destruct (wrapInt (cnt - 1) =? 0); [done|]. destruct late; [done|].
    by apply IH.
Qed.

Lemma handleBatch_applyAll {W} conf (kwi : KV.KeyWriter Msg W) kw startSize
    (seed : chObject) (ch : arrivals) :
  applyAll kwi kw startSize (h_applied (handleBatch conf kwi kw startSize seed ch))
  = (h_kw (handleBatch conf kwi kw startSize seed ch),
     match h_ret (handleBatch conf kwi kw startSize seed ch) with
     | Ok (size, _) => Ok size
     | Fail err => Fail err
     end).
Proof. by apply handleBatch_loop_applyAll. Qed.

(** What the events of a failed pass list is what the read-only scope of
    a pass that succeeds hands back. *)
Lemma attempted_applied conf (st : Store) (seed : chObject) (ch : arrivals) b :
  KV.ExecuteReadOnly st (ns seed) (readBody conf seed ch) = Ok b →
  attempted conf st seed ch = applied b.
Proof.
  unfold attempted, KV.ExecuteReadOnly.
  destruct (KV.snapshot st (ns seed)) as [kr|e]; cbn; [|done].
  unfold readBody, readApplied.
  destruct (readObjectSize kr) as [s0|e]; cbn; [|done].
  destruct (h_ret _) as [[sz sd]|e]; cbn; [|done]. by intros [= <-].
Qed.

(** An error of [handleBatch] is the error of the last object it applied,
    and the first: the objects before it were applied without error. *)
Lemma handleBatch_loop_first_error {W} (kwi : KV.KeyWriter Msg W) kw0 size0
    (seed obj : chObject) cnt curSize kw acc (ch : arrivals) err :
  applyAll kwi kw0 size0 acc = (kw, Ok curSize) →
  h_ret (handleBatch_loop kwi seed obj cnt curSize kw acc ch) = Fail err →
  ∃ before bad kw' size,
    h_applied (handleBatch_loop kwi seed obj cnt curSize kw acc ch) = before ++ [bad]
    ∧ applyAll kwi kw0 size0 before = (kw', Ok size)
    ∧ (KV.run kwi (ApplyMutation size (mut bad)) kw').2 = Fail err.
Proof.
  revert obj cnt curSize kw acc.
  induction ch as [|[late o] rest IH]; intros obj cnt curSize kw acc A;
    rewrite handleBatch_loop_unfold;
    (destruct (negb (bytes_Equal (ns seed) (ns obj))); [done|]);
    pose proof (applyAll_snoc kwi kw0 size0 acc obj) as S; rewrite A in S;
    destruct (KV.run kwi (ApplyMutation curSize (mut obj)) kw) as [kw' [sz|e]] eqn:R.
  - by destruct (wrapInt (cnt - 1) =? 0).
  - cbn. intros [= ->]. exists acc, obj, kw, curSize. by rewrite R.
  - destruct (wrapInt (cnt - 1) =? 0); [done|]. destruct late; [done|].
    by apply IH.
  - cbn. intros [= ->]. exists acc, obj, kw, curSize. by rewrite R.
Qed.

Lemma queueAll_snoc (reqs : list (bytes * Mutation)) r :
  queueAll (reqs ++ [r])
  = ((QueueMutation (queueAll reqs).1 r.1 r.2).1,
     (queueAll reqs).2 ++ [(QueueMutation (queueAll reqs).1 r.1 r.2).2]).
Proof. unfold queueAll. by rewrite foldl_app. Qed.

(** C2, as the code has it.  [QueueMutation] returns an error only, and
    that is [nil] for every call: the mutations are on the channel in the
    order of the calls, there is no promise, and nothing is durable yet.
    When a mutation of a batch then fails to apply, in whatever pass of the
    consumer (one that begins with a seed handed on, or by receiving its
    seed): the error of [handleBatch] is that first error, the
    mutations before it in the batch having been applied to the overlay
    only; no read-write scope is opened and the store stays as it was; and
    [consume] ends in [log.Fatal] with that error, which none of the
    callers was given. *)
Theorem QueueMutation_enqueues_failure_is_fatal conf (st : Store)
    (reqs : list (bytes * Mutation)) (seed : chObject) (ch : arrivals)
    kr size0 err :
  let h := handleBatch conf Overlay.writer (Overlay.newWrapper kr) size0 seed ch in
  KV.snapshot st (ns seed) = Ok kr →
  readObjectSize kr = Ok size0 →
  h_ret h = Fail err →
  ((queueAll reqs).1 = (λ r, {| ns := r.1; mut := r.2 |}) <$> reqs
   ∧ Forall (λ ret, ret = None) (queueAll reqs).2
   ∧ length (queueAll reqs).2 = length reqs)
  ∧ (∃ before bad kw size,
       h_applied h = before ++ [bad]
       ∧ applyAll Overlay.writer (Overlay.newWrapper kr) size0 before = (kw, Ok size)
       ∧ (KV.run Overlay.writer (ApplyMutation size (mut bad)) kw).2 = Fail err)
  ∧ consume_body conf st seed ch
    = (st, EvReadOnly (ns seed) :: (EvApply <$> h_applied h), Fail err)
  ∧ (∀ fuel, consume_loop (S fuel) conf st ch (Some seed)
             = (st, EvReadOnly (ns seed) :: (EvApply <$> h_applied h), Fatal err))
  ∧ (∀ fuel late, consume_loop (S fuel) conf st ((late, seed) :: ch) None
             = (st, EvReadOnly (ns seed) :: (EvApply <$> h_applied h), Fatal err))
  ∧ (∀ late, consume conf st ((late, seed) :: ch)
             = (st, EvReadOnly (ns seed) :: (EvApply <$> h_applied h), Fatal err)).
Proof.
  cbn zeta. intros Hkr Hsize R.
  assert (consume_body conf st seed ch
          = (st, EvReadOnly (ns seed)
                 :: (EvApply <$> h_applied (handleBatch conf Overlay.writer
                                              (Overlay.newWrapper kr) size0 seed ch)),
             Fail err)) as Body.
  { unfold consume_body, attempted, KV.ExecuteReadOnly. rewrite Hkr.
    cbn [mbind result_bind]. unfold readBody, readApplied. rewrite Hsize.
    cbn [mbind result_bind]. by rewrite R. }
  split; [|split; [|split; [exact Body|split; [|split]]]].
  - induction reqs as [|r reqs (IH1 & IH2 & IH3)] using rev_ind; [done|].
    rewrite queueAll_snoc. cbn [fst snd QueueMutation].
    rewrite IH1, fmap_app, !length_app, IH3. split; [done|]. split; [|done].
    apply Forall_app. split; [done|]. by constructor.
  - by apply (handleBatch_loop_first_error Overlay.writer (Overlay.newWrapper kr)
                size0 seed seed (BatchSize conf) size0 (Overlay.newWrapper kr) [] ch).
  - intros fuel. cbn [consume_loop]. by rewrite Body.
  - intros fuel late. cbn [consume_loop receive]. by rewrite Body.
  - intros late. unfold consume. cbn [length Nat.mul Nat.add consume_loop receive].
    by rewrite Body.
Qed.

Lemma updates_applies (l : list chObject) :
  updates (EvApply (Msg:=Msg) <$> l) = [].
Proof. induction l as [|o l IH]; [done|]. cbn. apply IH. Qed.

Lemma updates_app (evs1 evs2 : list (event Msg Mutation)) :
  updates (evs1 ++ evs2) = updates evs1 ++ updates evs2.
Proof. apply bind_app. Qed.

Lemma updates_readonly ns (evs : list (event Msg Mutation)) :
  updates (EvReadOnly ns :: evs) = updates evs.
Proof. done. Qed.

Lemma run_replay_setEach {W} (kw : KV.KeyWriter Msg W) l k w :
  KV.run kw (Overlay.replay l k) w
  = match Overlay.setEach kw l w with
    | (w', Some e) => (w', Fail e)
    | (w', None) => KV.run kw k w'
    end.
Proof.
  revert w. induction l as [|o l IH]; intros w; [done|]. cbn.
  destruct (KV.kwSet kw w _ _ _) as [w' [e|]]; [done|]. apply IH.
Qed.

(** What decides, in the code, whether a read-write scope is opened.
    After the read-only scope has closed without error, [consume] opens a
    read-write scope exactly when the size the batch ended with is greater
    than the size it began with.  The scope
    then sets the operations of the overlay's replay list, the same and in
    the same order, stopping at a [Set] that fails, and after them writes
    the final size; its error, if any, is fatal.  When the size has not
    grown no read-write scope is opened and the store stays as it was,
    whatever the overlay holds. *)
Lemma update_scope_iff_size_grew conf (st : Store) (seed : chObject)
    (ch : arrivals) b :
  KV.ExecuteReadOnly st (ns seed) (readBody conf seed ch) = Ok b →
  (nextSize b > startSize b →
     updates (consume_body conf st seed ch).1.2
     = [(ns seed, Overlay.L (wrapper b), nextSize b)]
     ∧ ((consume_body conf st seed ch).1.1, errOf (consume_body conf st seed ch).2)
       = KV.ExecuteUpdate st (ns seed)
           (Overlay.replay (Overlay.L (wrapper b)) (writeObjectSize (nextSize b))))
  ∧ (nextSize b ≤ startSize b →
     updates (consume_body conf st seed ch).1.2 = []
     ∧ (consume_body conf st seed ch).1.1 = st
     ∧ (consume_body conf st seed ch).2 = Ok (remaining b, nextSeed b))
  ∧ (∀ W (kw : KV.KeyWriter Msg W) w,
       KV.run kw (saveBody (wrapper b) (nextSize b)) w
       = match Overlay.setEach kw (Overlay.L (wrapper b)) w with
         | (w', Some e) => (w', Fail e)
         | (w', None) => KV.run kw (writeObjectSize (nextSize b)) w'
         end).
Proof.
  intros RO. unfold consume_body. rewrite RO.
  split; [|split].
  - intros G. apply Z.gtb_gt in G. rewrite G. unfold saveBody.
    destruct (KV.ExecuteUpdate st (ns seed) _) as [st' [e|]]; cbn [fst snd errOf];
      (split; [|done]);
      by rewrite updates_app, updates_readonly, updates_applies.
  - intros G. assert ((nextSize b >? startSize b) = false) as ->.
    { rewrite Z.gtb_ltb. apply Z.ltb_ge. lia. }
    cbn [fst snd]. split; [|done]. rewrite updates_readonly. apply updates_applies.
  - intros W kw w. apply run_replay_setEach.
Qed.




End batch_facts.

(** ** The instant mutator, and the batch mutator with batches of one *)

Section instant_facts.
Context {Msg : Type} `{!Proto Msg}.
Context {Mutation : Type} `{!Batch.Engine Msg Mutation}.
Context `{!Instant.Applier Msg Mutation}.
Context {Store : Type} `{!KV.Substrate Msg Store}.

(** C7, as the code has it.  The instant mutator's [QueueMutation] returns
    no error, and a promise whose [WaitUntilDone] yields exactly the error
    (or [nil]) of one read-write scope in which that mutation alone is
    applied; the store is as that scope leaves it.  The batch mutator with
    [BatchSize = 1] and [Timeout = 0] likewise applies each mutation in a
    batch of its own: [handleBatch] applies its seed, takes nothing from
    the channel and hands no seed on. *)
Theorem instant_applies_in_own_scope (st : Store) ns (mut : Mutation) :
  (Instant.QueueMutation st ns mut).2.2 = None
  ∧ ((Instant.QueueMutation st ns mut).1,
     Instant.WaitUntilDone (Instant.QueueMutation st ns mut).2.1)
    = KV.ExecuteUpdate st ns (Instant.ApplyMutation mut)
  ∧ ∀ buffer W (kwi : KV.KeyWriter Msg W) kw size
      (seed : Batch.chObject Mutation) (ch : Batch.arrivals Mutation),
      let h := Batch.handleBatch
                 {| Batch.Timeout := 0; Batch.BatchSize := 1;
                    Batch.BufferSize := buffer |} kwi kw size seed ch in
      Batch.h_applied h = [seed] ∧ Batch.h_ch h = ch
      ∧ (Batch.h_kw h, match Batch.h_ret h with
                       | Ok (size', carried) => (Ok size', carried)
                       | Fail err => (Fail err, None)
                       end)
        = ((KV.run kwi (Batch.ApplyMutation size (Batch.mut seed)) kw).1,
           ((KV.run kwi (Batch.ApplyMutation size (Batch.mut seed)) kw).2, None)).
Proof.
  split; [done|]. split.
  - unfold Instant.QueueMutation, Instant.WaitUntilDone. cbn.
    by destruct (KV.ExecuteUpdate st ns (Instant.ApplyMutation mut)).
  - intros buffer W kwi kw size seed ch. cbn zeta.
    unfold Batch.handleBatch. rewrite handleBatch_loop_unfold.
    unfold bytes_Equal. rewrite bool_decide_eq_true_2 by done. cbn.
    by destruct (KV.run kwi (Batch.ApplyMutation size (Batch.mut seed)) kw)
      as [kw' [size'|err]].
Qed.

End instant_facts.

(** ** The batch mutator at work on the in-memory store *)

Section batch_runs.
Import Batch Mem.
#[local] Abbreviation store := (gmap (bytes * bytes * bytes) bytes).

(** C1.  An append to one log followed by an append to another, with room
    in the batch for both: the batch stops at the item of the other
    namespace, but [handleBatch] hands back its own seed, so [consume]
    applies the first append a second time and never applies the other,
    whose entry is not stored. *)
Theorem consume_loses_foreign_item :
  applies (consume conf10 (∅ : store) (timely [addX; addY])).1.2 = [addX; addX]
  ∧ (consume conf10 (∅ : store) (timely [addX; addY])).2 = Returned
  ∧ lookup (consume conf10 (∅ : store) (timely [addX; addY])).1.1
      logB (bucket "entry") (list_byte_of_string "y") = Fail ErrNoSuchKey.
Proof. split; [|split]; vm_compute; reflexivity. Qed.

(** The batch of [addX] with [addY] next on the channel hands back [addX]
    itself and leaves the channel empty. *)
Example handleBatch_hands_back_its_seed :
  let h := handleBatch conf10 Overlay.writer (Overlay.newWrapper (lookup ∅ logA))
             0 addX (timely [addY]) in
  h_ret h = Ok (1, Some addX) ∧ h_ch h = [] ∧ h_applied h = [addX].
Proof. split; [|split]; vm_compute; reflexivity. Qed.

(** C2, refuted as the specification words it: the caller of
    [QueueMutation] is given [nil] for a mutation whose batch fails. *)
Lemma promise_fails_with_batch_refuted :
  ¬ Spec.promise_fails_with_batch (Msg:=bytes) (Mutation:=mutation)
      (Store:=store) conf10.
Proof.
  intros C.
  destruct (consume conf10 (∅ : store)
              ((λ o, (false, o)) <$> (QueueMutation [] logA Unsupported).1))
    as [[st' evs] out] eqn:E.
  assert (out = Fatal (ErrExternal "not implemented")) as ->.
  { change out with (st', evs, out).2. rewrite <- E. vm_compute. reflexivity. }
  by specialize (C ∅ st' logA Unsupported evs _ E).
Qed.

(** The failure of a batch at work: two callers queue an append and a
    mutation the engine refuses, and both are given [nil]; the append is
    applied to the overlay, the refusal ends the batch, the store is
    untouched and the consumer is gone. *)
Lemma QueueMutation_enqueues_failure_is_fatal_witness :
  (queueAll [(logA, LogAdd (list_byte_of_string "x")); (logA, Unsupported)]).1
  = [addX; refused]
  ∧ Forall (λ ret, ret = None)
      (queueAll [(logA, LogAdd (list_byte_of_string "x")); (logA, Unsupported)]).2
  ∧ consume conf10 (∅ : store) (timely [addX; refused])
    = (∅, [EvReadOnly logA; EvApply addX; EvApply refused],
       Fatal (ErrExternal "not implemented")).
Proof.
  destruct (QueueMutation_enqueues_failure_is_fatal
              (Msg:=bytes) (Mutation:=mutation) (Store:=store) conf10 ∅
              [(logA, LogAdd (list_byte_of_string "x")); (logA, Unsupported)]
              addX (timely [refused]) (lookup ∅ logA) 0
              (ErrExternal "not implemented"))
    as ((Q1 & Q2 & _) & _ & _ & _ & _ & C); [vm_compute; reflexivity ..|].
  split; [exact Q1|]. split; [exact Q2|].
  change (timely [addX; refused]) with ((false, addX) :: timely [refused]).
  rewrite (C false). reflexivity.
Defined.


(** One pass of the consumer at work, for a first append to [logA]: the
    size grows from 0 to 1 and the two writes of the append are replayed,
    then the size. *)
Lemma update_scope_iff_size_grew_witness :
  ∃ b, KV.ExecuteReadOnly (∅ : store) (ns addX) (readBody conf10 addX []) = Ok b
    ∧ nextSize b = 1 ∧ startSize b = 0
    ∧ updates (consume_body conf10 (∅ : store) addX []).1.2
      = [(logA, Overlay.L (wrapper b), nextSize b)].
Proof.
  assert (match KV.ExecuteReadOnly (∅ : store) (ns addX) (readBody conf10 addX []) with
          | Ok b => nextSize b = 1 ∧ startSize b = 0
          | Fail _ => False
          end) as Hb by (vm_compute; split; reflexivity).
  destruct (KV.ExecuteReadOnly (∅ : store) (ns addX) (readBody conf10 addX []))
    as [b|e] eqn:RO; [|destruct Hb].
  exists b. destruct Hb as [N S].
  split; [reflexivity|]. split; [exact N|]. split; [exact S|].
  apply (update_scope_iff_size_grew conf10 ∅ addX [] b RO). lia.
Defined.


(** C7, refuted as the specification words it: for a mutation the engine
    refuses, the promise of the instant mutator yields the error, and the
    batch mutator's [QueueMutation] returns [nil]. *)
Lemma instant_as_batch_of_one_refuted :
  ¬ Spec.instant_as_batch_of_one (Msg:=bytes) (Mutation:=mutation) (Store:=store).
Proof. intros C. specialize (C ∅ logA Unsupported). vm_compute in C. done. Qed.

End batch_runs.

(** ** [LogTreeHash] *)

Section log_tree_hash_facts.
Context {Msg : Type} `{!Service.LogReads Msg}.
Context {Store : Type} `{!KV.Substrate Msg Store}.
Import Service.

(** [LogTreeHash] for a request that passes the access check and names a
    log with a namespace whose head can be read: what the body of the
    read-only scope does. *)
Lemma LogTreeHash_authorized (st : Store) req ns kr head :
  verifyAccessForLogOperation (Pb.Log req) = None →
  logBucket (Pb.Log req) = Ok ns →
  KV.snapshot st ns = Ok kr →
  lookupLogTreeHead kr (Pb.LogType_ (Pb.Log req)) = Ok head →
  LogTreeHash st req
  = if bool_decide (Pb.TreeSize req < 0) then Fail ErrInvalidTreeRange
    else if bool_decide (Pb.TreeSize req = 0)
            || bool_decide (Pb.TreeSize req = Pb.RespTreeSize head) then Ok head
    else if bool_decide (Pb.TreeSize req > Pb.RespTreeSize head) then
      Fail ErrInvalidTreeRange
    else
      m ← lookupLogRootHashBySize kr (Pb.LogType_ (Pb.Log req)) (Pb.TreeSize req);
      Ok {| Pb.RespTreeSize := Pb.TreeSize req; Pb.RootHash := Pb.Mth m |}.
Proof.
  intros A B Sn Hd. unfold LogTreeHash. rewrite A, B.
  case_bool_decide; [done|].
  unfold KV.ExecuteReadOnly, LogTreeHash_body. rewrite Sn. cbn. by rewrite Hd.
Qed.

(** C3, as the code has it.  A request with [tree_size = 0] returns the
    current head of the log, with the size and the root hash the head
    record holds. *)
Theorem LogTreeHash_zero_returns_head (st : Store) log ns kr head :
  verifyAccessForLogOperation log = None →
  logBucket log = Ok ns →
  KV.snapshot st ns = Ok kr →
  lookupLogTreeHead kr (Pb.LogType_ log) = Ok head →
  LogTreeHash st {| Pb.Log := log; Pb.TreeSize := 0 |} = Ok head.
Proof.
  intros A B Sn Hd.
  by rewrite (LogTreeHash_authorized st {| Pb.Log := log; Pb.TreeSize := 0 |}
                ns kr head A B Sn Hd).
Qed.

(** C4.  For an authorized request on a log whose head can be read and
    has a size that is not negative, [LogTreeHash] fails with
    [ErrInvalidTreeRange] exactly when the tree size asked for is negative
    or greater than the size of the head; the lookup of a stored root is
    taken not to fail with that error itself. *)
Theorem LogTreeHash_invalid_range_iff (st : Store) req ns kr head :
  verifyAccessForLogOperation (Pb.Log req) = None →
  logBucket (Pb.Log req) = Ok ns →
  KV.snapshot st ns = Ok kr →
  lookupLogTreeHead kr (Pb.LogType_ (Pb.Log req)) = Ok head →
  0 ≤ Pb.RespTreeSize head →
  lookupLogRootHashBySize kr (Pb.LogType_ (Pb.Log req)) (Pb.TreeSize req)
    ≠ Fail ErrInvalidTreeRange →
  LogTreeHash st req = Fail ErrInvalidTreeRange
  ↔ Pb.TreeSize req < 0 ∨ Pb.TreeSize req > Pb.RespTreeSize head.
Proof.
  intros A B Sn Hd Hsize Hroot.
  rewrite (LogTreeHash_authorized st _ ns kr head A B Sn Hd).
  destruct (decide (Pb.TreeSize req < 0)) as [Neg|NotNeg].
  { rewrite bool_decide_eq_true_2 by done. split; [auto|done]. }
  rewrite bool_decide_eq_false_2 by done.
  destruct (decide (Pb.TreeSize req = 0)) as [Zero|NotZero].
  { rewrite (bool_decide_eq_true_2 _ Zero). cbn [orb]. split; [done|lia]. }
  rewrite (bool_decide_eq_false_2 _ NotZero). cbn [orb].
  destruct (decide (Pb.TreeSize req = Pb.RespTreeSize head)) as [Same|NotSame].
  { rewrite (bool_decide_eq_true_2 _ Same). split; [done|lia]. }
  rewrite (bool_decide_eq_false_2 _ NotSame).
  destruct (decide (Pb.TreeSize req > Pb.RespTreeSize head)) as [Above|NotAbove].
  { rewrite (bool_decide_eq_true_2 _ Above). split; [auto|done]. }
  rewrite (bool_decide_eq_false_2 _ NotAbove).
  destruct (lookupLogRootHashBySize kr _ _) as [m|e]; cbn.
  - split; [done|lia].
  - split; [by intros [= ->]|lia].
Qed.

End log_tree_hash_facts.

Section log_tree_hash_runs.
Import Service Mem.
#[local] Abbreviation store := (gmap (bytes * bytes * bytes) bytes).

(** C3, refuted as the specification words it: on a log of three entries
    a request with [tree_size = 0] returns the head of size 3. *)
Lemma tree_hash_zero_is_empty_refuted :
  ¬ Spec.tree_hash_zero_is_empty (Msg:=bytes) (Store:=store).
Proof.
  intros C.
  specialize (C storeLog3 logARef logA (lookup storeLog3 logA)
                {| Pb.RespTreeSize := 3; Pb.RootHash := root 3 |}
                eq_refl eq_refl eq_refl).
  vm_compute in C. by specialize (C eq_refl).
Qed.

Lemma LogTreeHash_zero_returns_head_witness :
  LogTreeHash storeLog3 {| Pb.Log := logARef; Pb.TreeSize := 0 |}
  = Ok {| Pb.RespTreeSize := 3; Pb.RootHash := root 3 |}.
Proof.
  apply (LogTreeHash_zero_returns_head storeLog3 logARef logA
           (lookup storeLog3 logA)); reflexivity.
Defined.

Lemma LogTreeHash_invalid_range_iff_witness :
  LogTreeHash storeLog3 {| Pb.Log := logARef; Pb.TreeSize := 5 |}
  = Fail ErrInvalidTreeRange.
Proof.
  apply (LogTreeHash_invalid_range_iff storeLog3
           {| Pb.Log := logARef; Pb.TreeSize := 5 |} logA
           (lookup storeLog3 logA)
           {| Pb.RespTreeSize := 3; Pb.RootHash := root 3 |});
    try reflexivity; vm_compute; try discriminate.
  right. reflexivity.
Defined.

End log_tree_hash_runs.

(** ** [LogCreate] *)

Section log_create_facts.
Context {S Promise : Type} `{!Service.MutatorService S Promise}.
Import Service.

Lemma LogCreate_invalid (verify : Pb.LogRef → option error) (s : S) req :
  verify (Pb.CreateLog req) = None →
  Pb.LogType_ (Pb.CreateLog req) ≠ Pb.STRUCT_TYPE_LOG
  ∨ String.length (Pb.Name (Pb.CreateLog req)) = 0%nat →
  LogCreate verify s req = (s, Fail ErrInvalidRequest).
Proof.
  intros A [NotPlain|NoName]; unfold LogCreate; rewrite A.
  - by rewrite bool_decide_eq_true_2.
  - case_bool_decide; [done|]. by rewrite bool_decide_eq_true_2.
Qed.

Lemma LogCreate_valid (verify : Pb.LogRef → option error) (s : S) req :
  verify (Pb.CreateLog req) = None →
  ¬ (Pb.LogType_ (Pb.CreateLog req) ≠ Pb.STRUCT_TYPE_LOG
     ∨ String.length (Pb.Name (Pb.CreateLog req)) = 0%nat) →
  LogCreate verify s req
  = match QueueMutation s {| Pb.LogCreate := Some req |} with
    | (s1, Fail err) => (s1, Fail err)
    | (s1, Ok promise) =>
        match WaitUntilDone s1 promise with
        | (s2, Some err) => (s2, Fail err)
        | (s2, None) => (s2, Ok Pb.mkLogCreateResponse)
        end
    end.
Proof.
  intros A Valid. unfold LogCreate. rewrite A.
  rewrite !bool_decide_eq_false_2 by tauto. done.
Qed.

(** C10.  For an authorized request, [LogCreate] answers
    [ErrInvalidRequest] without queueing anything when the log is not a
    plain log or has no name.  Otherwise it queues the create mutation,
    once, and succeeds exactly when the mutation was queued and its
    promise is done without error; a failure of the mutator is returned as
    it is.  So, a mutator that does not itself fail with
    [ErrInvalidRequest] given, the answer is [ErrInvalidRequest] exactly
    for a log that is not plain or has no name. *)
Theorem LogCreate_invalid_request (verify : Pb.LogRef → option error)
    (s : S) (req : Pb.LogCreateRequest) :
  verify (Pb.CreateLog req) = None →
  let invalid := Pb.LogType_ (Pb.CreateLog req) ≠ Pb.STRUCT_TYPE_LOG
                 ∨ String.length (Pb.Name (Pb.CreateLog req)) = 0%nat in
  let queued := QueueMutation s {| Pb.LogCreate := Some req |} in
  (invalid → LogCreate verify s req = (s, Fail ErrInvalidRequest))
  ∧ (¬ invalid →
       LogCreate verify s req
       = match queued with
         | (s1, Fail err) => (s1, Fail err)
         | (s1, Ok promise) =>
             match WaitUntilDone s1 promise with
             | (s2, Some err) => (s2, Fail err)
             | (s2, None) => (s2, Ok Pb.mkLogCreateResponse)
             end
         end)
  ∧ (¬ invalid →
       (LogCreate verify s req).2 = Ok Pb.mkLogCreateResponse
       ↔ ∃ promise, queued.2 = Ok promise
                    ∧ (WaitUntilDone queued.1 promise).2 = None)
  ∧ (queued.2 ≠ Fail ErrInvalidRequest →
     (∀ promise, queued.2 = Ok promise →
        (WaitUntilDone queued.1 promise).2 ≠ Some ErrInvalidRequest) →
     (LogCreate verify s req).2 = Fail ErrInvalidRequest ↔ invalid).
Proof.
  intros A. cbn zeta.
  split; [by apply LogCreate_invalid|]. split; [by apply LogCreate_valid|]. split.
  - intros Valid. rewrite (LogCreate_valid verify s req A Valid).
    destruct (QueueMutation s {| Pb.LogCreate := Some req |}) as [s1 [p|e]];
      cbn [fst snd].
    + destruct (WaitUntilDone s1 p) as [s2 [e|]] eqn:W; cbn [fst snd].
      * split; [done|]. intros (p' & [= <-] & W'). rewrite W in W'. done.
      * split; [|done]. intros _. exists p. by rewrite W.
    + split; [done|]. by intros (p' & [=] & _).
  - intros NotQ NotW.
    destruct (decide (Pb.LogType_ (Pb.CreateLog req) ≠ Pb.STRUCT_TYPE_LOG
                      ∨ String.length (Pb.Name (Pb.CreateLog req)) = 0%nat))
      as [Invalid|Valid].
    + by rewrite (LogCreate_invalid verify s req A Invalid).
    + rewrite (LogCreate_valid verify s req A Valid).
      destruct (QueueMutation s {| Pb.LogCreate := Some req |}) as [s1 [p|e]];
        cbn [fst snd] in *.
      * specialize (NotW p eq_refl).
        destruct (WaitUntilDone s1 p) as [s2 [e|]]; cbn [fst snd] in *.
        -- split; [|done]. intros [= ->]. done.
        -- split; done.
      * split; [|done]. intros [= ->]. done.
Qed.

End log_create_facts.

Section log_create_runs.
Import Service Mem.

(** A plain log with a name is created: the mutation is queued and the call
    succeeds. *)
Lemma LogCreate_invalid_request_witness :
  @LogCreate _ _ (queueing []) (λ _, None) [] {| Pb.CreateLog := logARef |}
  = ([ {| Pb.LogCreate := Some {| Pb.CreateLog := logARef |} |} ],
     Ok Pb.mkLogCreateResponse).
Proof.
  refine (eq_trans
    (proj1 (proj2 (@LogCreate_invalid_request _ _ (queueing []) (λ _, None) []
                     {| Pb.CreateLog := logARef |} eq_refl)) _) _).
  - vm_compute. intros [N|N]; [by apply N|discriminate].
  - reflexivity.
Defined.

End log_create_runs.

(** ** The map client: the proof headers *)

Section client_facts.
Context `{!Client.GoLib}.
Import Client.

(** A loop keeps what each pass of its body keeps. *)
Lemma forRange_invariant {A B} (P : A → Prop) (Q : B → Prop)
    (body : A → B → outcome A) l a a' :
  (∀ a x a', P a → Q x → body a x = Done (Ok a') → P a') →
  Forall Q l → P a → forRange body a l = Done (Ok a') → P a'.
Proof.
  intros Step. revert a. induction l as [|x l IH]; intros a HQ Pa R.
  - by injection R as <-.
  - apply Forall_cons in HQ as [Qx Ql]. cbn in R.
    destruct (body a x) as [[a1|e]|] eqn:E; [|done..]. eauto.
Qed.

(** What one piece of a header line says, when it is an entry
    [index/hex]. *)
Lemma parseEntry_cases prv commad prv' :
  parseEntry prv commad = Done (Ok prv') →
  prv' = prv
  ∨ ∃ bits0 bits1 idx bs,
      SplitN2 "/" commad = [bits0; bits1]
      ∧ Atoi (TrimSpace bits0) = Ok idx
      ∧ DecodeString (TrimSpace bits1) = Ok bs
      ∧ 0 ≤ idx < 256 ∧ 0 ≤ idx < Z.of_nat (length prv)
      ∧ prv' = <[Z.to_nat idx:=Some bs]> prv.
Proof.
  unfold parseEntry.
  destruct (SplitN2 "/" commad) as [|bits0 [|bits1 [|? ?]]];
    try (intros [= <-]; by left).
  destruct (Atoi (TrimSpace bits0)) as [idx|e] eqn:At; [|done].
  destruct (DecodeString (TrimSpace bits1)) as [bs|e] eqn:De; [|done].
  case_bool_decide as Below; [|intros [= <-]; by left].
  unfold sliceStore. case_bool_decide as Inside; [|done].
  intros [= <-]. right. exists bits0, bits1, idx, bs.
  split_and!; try done; lia.
Qed.

(** An entry whose index is 256 or more is passed over. *)
Lemma parseEntry_beyond prv commad bits0 bits1 idx bs :
  SplitN2 "/" commad = [bits0; bits1] →
  Atoi (TrimSpace bits0) = Ok idx →
  DecodeString (TrimSpace bits1) = Ok bs →
  256 ≤ idx →
  parseEntry prv commad = Done (Ok prv).
Proof.
  intros Sp At De Ge. unfold parseEntry. rewrite Sp, At, De.
  by rewrite bool_decide_eq_false_2 by lia.
Qed.


(** The path [parseHeadersForProof] returns has 256 entries, and the ones
    that are set are announced by the headers. *)
Lemma parseHeadersForProof_path headers prv :
  parseHeadersForProof headers = Done (Ok prv) →
  length prv = 256%nat
  ∧ ∀ i bs, prv !! i = Some (Some bs) → announced headers i bs.
Proof.
  unfold parseHeadersForProof.
  destruct (headers !! CanonicalHeaderKey "X-Verified-Proof")
    as [actualHeaders|] eqn:Hd.
  - apply (forRange_invariant
      (λ prv, length prv = 256%nat
              ∧ ∀ i bs, prv !! i = Some (Some bs) → announced headers i bs)
      (λ h, h ∈ actualHeaders)).
    + intros prv0 h prv1 P0 Hh. 
      apply (forRange_invariant
        (λ prv, length prv = 256%nat
                ∧ ∀ i bs, prv !! i = Some (Some bs) → announced headers i bs)
        (λ commad, commad ∈ Split "," h)); [|by apply Forall_forall|done].
      intros prv2 commad prv3 [Len From] Hc E.
      apply parseEntry_cases in E
        as [->|(bits0 & bits1 & idx & bs & Sp & At & De & _ & In & ->)]; [done|].
      split; [by rewrite length_insert|]. intros i bs' Lk.
      destruct (decide (i = Z.to_nat idx)) as [->|Ne].
      * rewrite list_lookup_insert_eq in Lk by lia. injection Lk as <-.
        exists actualHeaders, h, commad, bits0, bits1.
        rewrite Z2Nat.id by lia. done.
      * rewrite list_lookup_insert_ne in Lk by done. by apply From.
    + by apply Forall_forall.
    + split; [apply length_replicate|]. intros i bs Lk.
      apply lookup_replicate in Lk as [[=] _].
  - intros E. assert (prv = replicate 256 None) as -> by congruence.
    split; [apply length_replicate|]. intros i bs Lk.
    apply lookup_replicate in Lk as [[=] _].
Qed.

(** C9.  The audit path of every proof [Get] returns has exactly 256
    entries; an entry of it is set only where the answer's
    [X-Verified-Proof] headers announce a sibling, so the entries left out
    on the wire stay absent; and an entry of the headers whose index is
    256 or more is passed over, whatever the path is. *)
Theorem Get_audit_path {Entry} MakeRequest key treeSize
    (factory : VerifiableEntryFactory Entry) proof :
  Get MakeRequest key treeSize factory = Done (Ok proof) →
  length (AuditPath proof) = 256%nat
  ∧ (∃ value headers,
       MakeRequest "GET"
         ("/tree/" +:+ pretty treeSize +:+ "/key/h/"
          +:+ Hex.EncodeToString key +:+ Format factory) = Ok (value, headers)
       ∧ ∀ i, (i < 256)%nat →
           match AuditPath proof !! i with
           | Some (Some bs) => announced headers i bs
           | Some None => True
           | None => False
           end)
  ∧ (∀ prv commad bits0 bits1 idx bs,
       SplitN2 "/" commad = [bits0; bits1] →
       Atoi (TrimSpace bits0) = Ok idx →
       DecodeString (TrimSpace bits1) = Ok bs →
       256 ≤ idx →
       parseEntry prv commad = Done (Ok prv)).
Proof.
  unfold Get. intros G.
  destruct (MakeRequest _ _) as [[value headers]|e]; [|done].
  destruct (parseHeadersForProof headers) as [[prv|e]|] eqn:P; [|done..].
  destruct (CreateFromBytes factory value) as [rv|e]; [|done].
  destruct (Atoi (Header_Get headers "X-Verified-TreeSize")) as [vts|e]; [|done].
  injection G as <-. cbn [AuditPath].
  apply parseHeadersForProof_path in P as [Len From].
  split; [done|]. split; [|apply parseEntry_beyond].
  exists value, headers. split; [done|]. intros i Hi.
  destruct (prv !! i) as [[bs|]|] eqn:Lk; [by apply From|done|].
  apply lookup_ge_None in Lk. lia.
Qed.

End client_facts.

Section client_runs.
Import Client.
#[local] Existing Instance asciiLib.

(** A [Get] at work: of the three entries announced, the two below 256
    are in the path of 256 entries, the one at 300 is not. *)
Lemma Get_audit_path_witness :
  ∃ proof,
    Get (answering [] sampleHeaders) [] 7 rawFactory = Done (Ok proof)
    ∧ length (AuditPath proof) = 256%nat
    ∧ List.filter (λ e, bool_decide (e ≠ None)) (AuditPath proof)
      = [Some ["171"%byte]; Some ["205"%byte; "239"%byte]].
Proof.
  assert (match Get (answering [] sampleHeaders) [] 7 rawFactory with
          | Done (Ok proof) =>
              List.filter (λ e, bool_decide (e ≠ None)) (AuditPath proof)
              = [Some ["171"%byte]; Some ["205"%byte; "239"%byte]]
          | _ => False
          end) as Hp by (vm_compute; reflexivity).
  destruct (Get (answering [] sampleHeaders) [] 7 rawFactory)
    as [[proof|e]|] eqn:G; [|destruct Hp..].
  exists proof. split; [reflexivity|].
  split; [exact (proj1 (Get_audit_path _ _ _ _ _ G))|exact Hp].
Defined.

End client_runs.

Section overlay_runs.
Import Overlay Mem.

(** Read-your-writes at work: two writes to one pair and one to another,
    over a parent that holds nothing; the pair reads as written last. *)
Lemma overlay_read_your_writes_witness :
  mapNoLockDB_Get
    (SetAll (newWrapper (λ _ _, Fail ErrNoSuchKey))
       [ {| Key := bucket "k"; Bucket := bucket "entry"; Value := bucket "v1" |};
         {| Key := bucket "j"; Bucket := bucket "entry"; Value := bucket "w" |};
         {| Key := bucket "k"; Bucket := bucket "entry"; Value := bucket "v2" |} ])
    (bucket "entry") (bucket "k")
  = Ok (bucket "v2").
Proof.
  refine (proj2 (proj2 (proj2 (overlay_read_your_writes _ _ _ _))) _
            {| Key := bucket "k"; Bucket := bucket "entry"; Value := bucket "v2" |} _).
  - intros v b [= <-]. reflexivity.
  - vm_compute. reflexivity.
Defined.

End overlay_runs.

(** * Further properties of the code *)

(** ** The overlay's keys *)

Section overlay_more.
Import Overlay.

(** X1.  Two bucket/key pairs share an overlay key only when they are the
    same pair: in [hex(bucket) + "|" + hex(key)] the separator cannot be
    mistaken for a part of either side, so a write to one pair is never
    read back for another. *)
Theorem overlay_keys_distinct (bucket key bucket' key' : bytes) :
  mapKey bucket key = mapKey bucket' key' ↔ bucket = bucket' ∧ key = key'.
Proof.
  split; [apply mapKey_inj|]. by intros [-> ->].
Qed.

End overlay_more.

(** ** One batch *)

Section batch_more.
Context {Msg : Type} `{!Proto Msg}.
Context {Mutation : Type} `{!Batch.Engine Msg Mutation}.
Context {Store : Type} `{!KV.Substrate Msg Store}.
Import Batch.
#[local] Abbreviation chObject := (Batch.chObject Mutation).
#[local] Abbreviation arrivals := (Batch.arrivals Mutation).

(** What the loop of [handleBatch] has taken from the channel when it
    stops: the items [pre] it applied after [obj], which came in time and
    are of the seed's namespace, and, when it hands a seed on, one more
    item of another namespace. *)
Lemma handleBatch_loop_taken {W} (kwi : KV.KeyWriter Msg W)
    (seed obj : chObject) cnt curSize kw acc (ch : arrivals) :
  ns obj = ns seed →
  ∃ pre : arrivals,
    h_applied (handleBatch_loop kwi seed obj cnt curSize kw acc ch)
    = acc ++ obj :: pre.*2
    ∧ Forall (λ x, x.1 = false ∧ ns x.2 = ns seed) pre
    ∧ match h_ret (handleBatch_loop kwi seed obj cnt curSize kw acc ch) with
      | Ok (_, Some _) =>
          ∃ foreign,
            ch = pre ++ (false, foreign)
                   :: h_ch (handleBatch_loop kwi seed obj cnt curSize kw acc ch)
            ∧ ns foreign ≠ ns seed
      | _ => ch = pre ++ h_ch (handleBatch_loop kwi seed obj cnt curSize kw acc ch)
      end.
Proof.
  revert obj cnt curSize kw acc.
  induction ch as [|[late o] rest IH]; intros obj cnt curSize kw acc Same;
    rewrite handleBatch_loop_unfold;
    (rewrite (proj2 (bytes_Equal_true (ns seed) (ns obj))) by done);
    cbn [negb];
    destruct (KV.run kwi (ApplyMutation curSize (mut obj)) kw) as [kw' [sz|e]].
  - exists []. by destruct (wrapInt (cnt - 1) =? 0).
  - by exists [].
  - destruct (wrapInt (cnt - 1) =? 0); [by exists []|].
    destruct late; [by exists []|].
    destruct (decide (ns o = ns seed)) as [SameO|Foreign].
    + destruct (IH o (wrapInt (cnt - 1)) sz kw' (acc ++ [obj]) SameO)
        as (pre & A & F & C).
      exists ((false, o) :: pre). split; [|split].
      * rewrite A, <- (assoc_L (++)). done.
      * by constructor.
      * destruct (h_ret _) as [[? [?|]]|?].
        -- destruct C as (foreign & C & N). exists foreign. by rewrite C at 1.
        -- by rewrite C at 1.
        -- by rewrite C at 1.
    + rewrite handleBatch_loop_unfold.
      rewrite (proj2 (bytes_Equal_false (ns seed) (ns o))) by done.
      cbn [negb h_applied h_ret h_ch]. exists []. split; [done|].
      split; [done|]. by exists o.
  - by exists [].
Qed.

(** X2.  Every object [handleBatch] applies is of its seed's namespace:
    a batch never mixes namespaces. *)
Theorem handleBatch_same_namespace {W} conf (kwi : KV.KeyWriter Msg W) kw
    startSize (seed : chObject) (ch : arrivals) :
  Forall (λ o, ns o = ns seed)
    (h_applied (handleBatch conf kwi kw startSize seed ch)).
Proof.
  destruct (handleBatch_loop_taken kwi seed seed (BatchSize conf) startSize kw
              [] ch eq_refl) as (pre & A & F & _).
  unfold handleBatch. rewrite A. cbn [app]. constructor; [done|].
  apply Forall_fmap. eapply Forall_impl; [exact F|]. by intros [late o] [_ ?].
Qed.

(** X5.  When [handleBatch] returns without a seed for the next pass, it
    has applied its seed and then the first items of the channel, in the
    order they were queued, and has left the rest of the channel as it
    was: nothing is lost and nothing is applied twice. *)
Theorem handleBatch_fifo {W} conf (kwi : KV.KeyWriter Msg W) kw startSize
    (seed : chObject) (ch : arrivals) size :
  h_ret (handleBatch conf kwi kw startSize seed ch) = Ok (size, None) →
  ∃ pre : arrivals,
    ch = pre ++ h_ch (handleBatch conf kwi kw startSize seed ch)
    ∧ h_applied (handleBatch conf kwi kw startSize seed ch) = seed :: pre.*2.
Proof.
  intros R.
  destruct (handleBatch_loop_taken kwi seed seed (BatchSize conf) startSize kw
              [] ch eq_refl) as (pre & A & _ & C).
  unfold handleBatch in *. rewrite R in C. by exists pre.
Qed.

Lemma wrapInt_id z : - 2 ^ 63 ≤ z < 2 ^ 63 → wrapInt z = z.
Proof. intros R. unfold wrapInt. rewrite Z.mod_small; lia. Qed.

Lemma handleBatch_loop_bound {W} (kwi : KV.KeyWriter Msg W)
    (seed obj : chObject) cnt curSize kw acc (ch : arrivals) :
  1 ≤ cnt < 2 ^ 63 →
  Z.of_nat (length (h_applied (handleBatch_loop kwi seed obj cnt curSize kw acc ch)))
  ≤ Z.of_nat (length acc) + cnt.
Proof.
  revert obj cnt curSize kw acc.
  induction ch as [|[late o] rest IH]; intros obj cnt curSize kw acc Cnt;
    rewrite handleBatch_loop_unfold;
    (destruct (negb (bytes_Equal (ns seed) (ns obj))); [cbn; lia|]);
    rewrite (wrapInt_id (cnt - 1)) by lia;
    (destruct (KV.run kwi (ApplyMutation curSize (mut obj)) kw) as [kw' [sz|e]];
       [|cbn [h_applied]; rewrite length_app; cbn; lia]);
    (destruct (cnt - 1 =? 0) eqn:Z0;
       [cbn [h_applied]; rewrite length_app; cbn; lia|]).
  - cbn [h_applied]. rewrite length_app. cbn. lia.
  - destruct late; [cbn [h_applied]; rewrite length_app; cbn; lia|].
    apply Z.eqb_neq in Z0. etrans; [apply IH; lia|].
    rewrite length_app. cbn. lia.
Qed.

(** X3.  With a batch size of at least one, [handleBatch] applies at most
    that many objects, however many are waiting on the channel. *)
Theorem handleBatch_bounded {W} conf (kwi : KV.KeyWriter Msg W) kw startSize
    (seed : chObject) (ch : arrivals) :
  1 ≤ BatchSize conf < 2 ^ 63 →
  Z.of_nat (length (h_applied (handleBatch conf kwi kw startSize seed ch)))
  ≤ BatchSize conf.
Proof.
  intros B. unfold handleBatch.
  etrans; [by apply handleBatch_loop_bound|]. cbn. lia.
Qed.

Lemma handleBatch_loop_unbounded {W} (kwi : KV.KeyWriter Msg W)
    (seed obj : chObject) cnt curSize kw acc (ch : arrivals) size carried :
  cnt ≤ 0 →
  - 2 ^ 63 ≤ cnt - Z.of_nat (length ch) - 1 →
  ns obj = ns seed →
  Forall (λ x, x.1 = false ∧ ns x.2 = ns seed) ch →
  h_ret (handleBatch_loop kwi seed obj cnt curSize kw acc ch) = Ok (size, carried) →
  h_ch (handleBatch_loop kwi seed obj cnt curSize kw acc ch) = []
  ∧ h_applied (handleBatch_loop kwi seed obj cnt curSize kw acc ch)
    = acc ++ obj :: ch.*2
  ∧ carried = None.
Proof.
  revert obj cnt curSize kw acc.
  induction ch as [|[late o] rest IH]; intros obj cnt curSize kw acc Neg Low Same All;
    rewrite handleBatch_loop_unfold;
    (rewrite (proj2 (bytes_Equal_true (ns seed) (ns obj))) by done);
    cbn [negb];
    (rewrite (wrapInt_id (cnt - 1)) by (cbn [length] in Low; lia));
    (destruct (KV.run kwi (ApplyMutation curSize (mut obj)) kw) as [kw' [sz|e]];
       [|done]);
    (destruct (cnt - 1 =? 0) eqn:Z0; [apply Z.eqb_eq in Z0; lia|]).
  - by intros [= <- <-].
  - apply Forall_cons in All as [[Timely SameO] All]. cbn in Timely, SameO.
    subst late. intros R.
    destruct (IH o (cnt - 1) sz kw' (acc ++ [obj])) as (C & A & N);
      [lia|cbn [length] in Low; lia|done|done|done|].
    split; [done|]. split; [|done]. rewrite A, <- (assoc_L (++)). done.
Qed.

(** X4.  A batch size of zero (or below) sets no limit: the count of
    [handleBatch] then never comes to zero, and with every waiting item in
    time and of the seed's namespace a batch that succeeds has applied the
    seed and the whole channel. *)
Theorem handleBatch_unbounded {W} conf (kwi : KV.KeyWriter Msg W) kw startSize
    (seed : chObject) (ch : arrivals) size carried :
  - 2 ^ 62 ≤ BatchSize conf ≤ 0 →
  Z.of_nat (length ch) < 2 ^ 62 →
  Forall (λ x, x.1 = false ∧ ns x.2 = ns seed) ch →
  h_ret (handleBatch conf kwi kw startSize seed ch) = Ok (size, carried) →
  h_ch (handleBatch conf kwi kw startSize seed ch) = []
  ∧ h_applied (handleBatch conf kwi kw startSize seed ch) = seed :: ch.*2
  ∧ carried = None.
Proof.
  intros B Len All R. unfold handleBatch in *.
  by apply (handleBatch_loop_unbounded kwi seed seed (BatchSize conf) startSize
              kw [] ch size carried); [lia|lia|..].
Qed.

End batch_more.

(** ** The consumer over a whole channel *)

Section consume_more.
Context {Msg : Type} `{!Proto Msg}.
Context {Mutation : Type} `{!Batch.Engine Msg Mutation}.
Context {Store : Type} `{!KV.Substrate Msg Store}.
Import Batch.
#[local] Abbreviation chObject := (Batch.chObject Mutation).
#[local] Abbreviation arrivals := (Batch.arrivals Mutation).
#[local] Abbreviation event := (Batch.event Msg Mutation).

Lemma applies_app (evs1 evs2 : list event) :
  applies (evs1 ++ evs2) = applies evs1 ++ applies evs2.
Proof. apply bind_app. Qed.

Lemma applies_EvApply (l : list chObject) :
  applies (EvApply (Msg:=Msg) <$> l) = l.
Proof. induction l as [|o l IH]; [done|]. cbn. by rewrite <- IH at 2. Qed.

(** What a pass has applied by the time its read-only scope returns, with
    an error or without, is its seed and objects taken from the channel. *)
Lemma attempted_queued conf (st : Store) (seed : chObject) (ch : arrivals) o :
  o ∈ attempted conf st seed ch → o = seed ∨ o ∈ ch.*2.
Proof.
  unfold attempted, KV.ExecuteReadOnly.
  destruct (KV.snapshot st (ns seed)) as [kr|?]; cbn [mbind result_bind];
    [|by intros ?%elem_of_nil].
  unfold readApplied.
  destruct (readObjectSize kr) as [size0|?]; [|by intros ?%elem_of_nil].
  destruct (handleBatch_loop_taken Overlay.writer seed seed (BatchSize conf)
              size0 (Overlay.newWrapper kr) [] ch eq_refl) as (pre & A & _ & C).
  fold (handleBatch conf Overlay.writer (Overlay.newWrapper kr) size0 seed ch)
    in A, C.
  rewrite A. cbn [app]. intros [->|In]%elem_of_cons; [by left|right].
  destruct (h_ret (handleBatch conf Overlay.writer (Overlay.newWrapper kr)
                     size0 seed ch)) as [[size1 [s|]]|?];
    [destruct C as (foreign & C & _)| |];
    rewrite C at 1; rewrite fmap_app; apply elem_of_app; by left.
Qed.

(** The events of one pass of the consumer: a read-only scope on the
    seed's namespace, the objects applied, and at most one read-write
    scope on that namespace. *)
Lemma consume_body_events conf (st : Store) (seed : chObject) (ch : arrivals) :
  ∃ objs upd,
    (consume_body conf st seed ch).1.2
    = EvReadOnly (ns seed) :: (EvApply <$> objs) ++ upd
    ∧ (∀ o, o ∈ objs → o = seed ∨ o ∈ ch.*2)
    ∧ (upd = [] ∨ ∃ ops size, upd = [EvUpdate (ns seed) ops size]).
Proof.
  exists (attempted conf st seed ch).
  pose proof (attempted_queued conf st seed ch) as Sub.
  unfold consume_body.
  destruct (KV.ExecuteReadOnly st (ns seed) (readBody conf seed ch)) as [b|e] eqn:RO.
  - rewrite (attempted_applied conf st seed ch b RO) in *.
    destruct (nextSize b >? startSize b).
    + exists [EvUpdate (ns seed) (Overlay.L (wrapper b)) (nextSize b)].
      split; [|split; [exact Sub|right; eauto]].
      by destruct (KV.ExecuteUpdate st (ns seed) _) as [st' [e|]].
    + exists []. split; [|split; [exact Sub|by left]].
      cbn [fst snd]. by rewrite app_nil_r.
  - exists []. split; [|split; [exact Sub|by left]].
    cbn [fst snd]. by rewrite app_nil_r.
Qed.

(** What one pass that is not fatal leaves for the next. *)
Lemma consume_body_next conf (st st' : Store) (seed : chObject) (ch ch' : arrivals)
    evs carried :
  consume_body conf st seed ch = (st', evs, Ok (ch', carried)) →
  ∃ pre : arrivals,
    applies evs = seed :: pre.*2
    ∧ match carried with
      | None => ch = pre ++ ch'
      | Some s =>
          s = seed
          ∧ ∃ foreign, ch = pre ++ (false, foreign) :: ch' ∧ ns foreign ≠ ns seed
      end.
Proof.
  unfold consume_body, KV.ExecuteReadOnly.
  destruct (KV.snapshot st (ns seed)) as [kr|?]; [|done]. cbn [mbind result_bind].
  unfold readBody.
  destruct (readObjectSize kr) as [size0|?]; [|done]. cbn [mbind result_bind].
  destruct (handleBatch_loop_taken Overlay.writer seed seed (BatchSize conf)
              size0 (Overlay.newWrapper kr) [] ch eq_refl) as (pre & A & _ & C).
  pose proof (handleBatch_carry conf Overlay.writer (Overlay.newWrapper kr)
                size0 seed ch) as Own.
  fold (handleBatch conf Overlay.writer (Overlay.newWrapper kr) size0 seed ch)
    in A, C.
  destruct (h_ret (handleBatch conf Overlay.writer (Overlay.newWrapper kr)
                     size0 seed ch)) as [[size1 sd]|?]; [|done].
  cbn [mbind result_bind startSize nextSize applied remaining nextSeed wrapper].
  assert (∀ upd : list event,
    applies (EvReadOnly (ns seed)
             :: (EvApply <$> h_applied (handleBatch conf Overlay.writer
                   (Overlay.newWrapper kr) size0 seed ch)) ++ upd)
    = seed :: pre.*2 ++ applies upd) as Ap.
  { intros upd.
    change (applies (EvReadOnly (ns seed) :: ?l)) with (applies l).
    by rewrite applies_app, applies_EvApply, A. }
  destruct (size1 >? size0).
  - destruct (KV.ExecuteUpdate st (ns seed) _) as [st1 [e|]]; [done|].
    intros [= <- <- <- <-]. exists pre. split.
    + rewrite app_comm_cons, applies_app. cbn [app].
      specialize (Ap []). rewrite app_nil_r in Ap. cbn in Ap.
      rewrite app_nil_r in Ap.
      change (applies [EvUpdate _ _ _]) with (@nil chObject).
      by rewrite app_nil_r.
    + destruct sd as [s|]; [|done].
      destruct (Own size1 s eq_refl) as [-> _]. done.
  - intros [= <- <- <- <-]. exists pre. split.
    + specialize (Ap []). rewrite app_nil_r in Ap. cbn in Ap.
      by rewrite app_nil_r in Ap.
    + destruct sd as [s|]; [|done].
      destruct (Own size1 s eq_refl) as [-> _]. done.
Qed.

(** A run of the consumer that returns has applied, once each and in the
    order of the channel, every object it was given, provided no pass can
    hand a seed on. *)
Lemma consume_loop_fifo conf (J : list chObject → Prop) :
  (∀ l1 l2, J (l1 ++ l2) → J l2) →
  (∀ (st st' : Store) seed (ch ch' : arrivals) evs s,
     J (seed :: ch.*2) →
     consume_body conf st seed ch ≠ (st', evs, Ok (ch', Some s))) →
  ∀ fuel (st st' : Store) (ch : arrivals) seed evs,
    J (option_list seed ++ ch.*2) →
    consume_loop fuel conf st ch seed = (st', evs, Returned) →
    applies evs = option_list seed ++ ch.*2.
Proof.
  intros Suffix NoCarry.
  assert (∀ fuel,
    (∀ (st st' : Store) (ch : arrivals) seed evs,
       J (option_list seed ++ ch.*2) →
       consume_loop fuel conf st ch seed = (st', evs, Returned) →
       applies evs = option_list seed ++ ch.*2) →
    ∀ (st st' : Store) (sd : chObject) (c : arrivals) evs,
      J (sd :: c.*2) →
      match consume_body conf st sd c with
      | (st1, evs1, Fail err) => (st1, evs1, Fatal err)
      | (st1, evs1, Ok (ch1, seed1)) =>
          let '(st2, evs2, out) := consume_loop fuel conf st1 ch1 seed1 in
          (st2, evs1 ++ evs2, out)
      end = (st', evs, Returned) →
      applies evs = sd :: c.*2) as Pass.
  { intros fuel IH st st' sd c evs Jc.
    destruct (consume_body conf st sd c) as [[st1 evs1] [[ch1 seed1]|e]] eqn:B;
      [|done].
    destruct (consume_loop fuel conf st1 ch1 seed1) as [[st2 evs2] out] eqn:R.
    intros [= <- <- ->].
    destruct seed1 as [s|]; [by destruct (NoCarry _ _ _ _ _ _ _ Jc B)|].
    apply consume_body_next in B as (pre & A & C). subst c.
    rewrite applies_app, A, fmap_app.
    rewrite (IH st1 st2 ch1 None evs2); [done| |done].
    apply (Suffix (sd :: pre.*2)). by rewrite fmap_app in Jc. }
  induction fuel as [|fuel IH]; intros st st' ch seed evs Jc; [done|].
  cbn [consume_loop]. destruct seed as [sd|].
  - by apply Pass.
  - destruct ch as [|[late sd] rest]; cbn [receive].
    + by intros [= <- <-].
    + by apply Pass.
Qed.

(** X6.  When all the objects on a channel are of one namespace and
    [consume] returns, it has applied every one of them exactly once, in
    the order they were queued, whatever the batch size and whichever
    waits timed out. *)
Theorem consume_single_namespace_fifo conf (st st' : Store) (ch : arrivals)
    (n : bytes) evs :
  Forall (λ x, ns x.2 = n) ch →
  consume conf st ch = (st', evs, Returned) →
  applies evs = ch.*2.
Proof.
  intros All R.
  refine (consume_loop_fifo conf (Forall (λ o, ns o = n)) _ _ _ st st' ch None
            evs _ R).
  - intros l1 l2 F. by apply Forall_app in F as [_ F].
  - intros st0 st1 seed c c' evs0 s F B.
    apply consume_body_next in B as (pre & _ & _ & foreign & C & N).
    apply Forall_cons in F as [Fs F]. subst c.
    rewrite fmap_app, Forall_app in F. destruct F as [_ F].
    apply Forall_cons in F as [Ff _]. cbn in Ff. congruence.
  - cbn [option_list app]. by apply Forall_fmap.
Qed.

(** X7.  With [BatchSize = 1], when [consume] returns it has applied every
    object of the channel exactly once and in the order they were queued,
    whatever their namespaces: no batch gets to see a second item. *)
Theorem consume_batch_of_one_fifo conf (st st' : Store) (ch : arrivals) evs :
  BatchSize conf = 1 →
  consume conf st ch = (st', evs, Returned) →
  applies evs = ch.*2.
Proof.
  intros One R.
  refine (consume_loop_fifo conf (λ _, True) _ _ _ st st' ch None evs I R);
    [done|].
  intros st0 st1 seed c c' evs0 s _.
  unfold consume_body, KV.ExecuteReadOnly.
  destruct (KV.snapshot st0 (ns seed)) as [kr|?]; [|done].
  cbn [mbind result_bind]. unfold readBody.
  destruct (readObjectSize kr) as [size0|?]; [|done].
  cbn [mbind result_bind]. unfold handleBatch.
  rewrite handleBatch_loop_unfold, One.
  rewrite (proj2 (bytes_Equal_true (ns seed) (ns seed))) by done.
  cbn [negb].
  destruct (KV.run Overlay.writer (ApplyMutation size0 (mut seed))
              (Overlay.newWrapper kr)) as [kw' [size1|?]]; [|done].
  change (wrapInt (1 - 1) =? 0) with true.
  cbn [h_ret h_kw h_ch h_applied mbind result_bind startSize nextSize nextSeed
       remaining wrapper applied].
  destruct (size1 >? size0); [|done].
  by destruct (KV.ExecuteUpdate st0 (ns seed) _) as [? [?|]].
Qed.

(** X8.  On a channel that is closed after finitely many items [consume]
    comes to an end: it returns, or it stops in [log.Fatal]; a seed handed
    on from pass to pass cannot keep it running. *)
Theorem consume_returns_or_fatal conf (st : Store) (ch : arrivals) :
  (consume conf st ch).2 = Returned ∨ ∃ err, (consume conf st ch).2 = Fatal err.
Proof.
  pose proof (consume_loop_enough (2 * length ch + 2) conf st ch None) as E.
  unfold consume. destruct (consume_loop _ conf st ch None).2 as [|err|];
    [by left|right; eauto|].
  exfalso. apply E; [cbn; lia|done].
Qed.

(** X9.  [consume] touches nothing that was not queued: every object it
    applies is one of the channel, and every scope it opens, read-only or
    read-write, is on the namespace of an object of the channel. *)
Theorem consume_only_queued conf (st : Store) (ch : arrivals) :
  Forall (λ ev,
            match ev with
            | EvApply o => o ∈ ch.*2
            | EvReadOnly n | EvUpdate n _ _ => n ∈ ns <$> ch.*2
            end)
    (consume conf st ch).1.2.
Proof.
  unfold consume. generalize (2 * length ch + 2)%nat as fuel.
  assert (∀ fuel (Q : list chObject) (st : Store) (c : arrivals) seed,
    (∀ o, o ∈ c.*2 → o ∈ Q) →
    (∀ s, seed = Some s → s ∈ Q) →
    Forall (λ ev : event,
              match ev with
              | EvApply o => o ∈ Q
              | EvReadOnly n | EvUpdate n _ _ => n ∈ ns <$> Q
              end)
      (consume_loop fuel conf st c seed).1.2) as Gen.
  { induction fuel as [|fuel IH]; intros Q st0 c seed InC InS; [by constructor|].
    assert (∀ (sd : chObject) (c0 : arrivals),
      sd ∈ Q → (∀ o, o ∈ c0.*2 → o ∈ Q) →
      Forall (λ ev : event,
                match ev with
                | EvApply o => o ∈ Q
                | EvReadOnly n | EvUpdate n _ _ => n ∈ ns <$> Q
                end)
        (match consume_body conf st0 sd c0 with
         | (st1, evs1, Fail err) => (st1, evs1, Fatal err)
         | (st1, evs1, Ok (ch1, seed1)) =>
             let '(st2, evs2, out) := consume_loop fuel conf st1 ch1 seed1 in
             (st2, evs1 ++ evs2, out)
         end).1.2) as Pass.
    { intros sd c0 InQ InC0.
      destruct (consume_body_events conf st0 sd c0) as (objs & upd & E & Sub & U).
      assert (Forall (λ ev : event,
                match ev with
                | EvApply o => o ∈ Q
                | EvReadOnly n | EvUpdate n _ _ => n ∈ ns <$> Q
                end) (consume_body conf st0 sd c0).1.2) as F1.
      { rewrite E. constructor; [by apply list_elem_of_fmap_2|].
        apply Forall_app. split.
        - apply Forall_fmap, Forall_forall. intros o In. cbn.
          destruct (Sub o In) as [->|In']; auto.
        - destruct U as [->|(ops & size & ->)]; [by constructor|].
          constructor; [by apply list_elem_of_fmap_2|by constructor]. }
      destruct (consume_body conf st0 sd c0) as [[st1 evs1] [[ch1 seed1]|e]] eqn:B;
        [|exact F1].
      pose proof (IH Q st1 ch1 seed1) as IH1.
      destruct (consume_loop fuel conf st1 ch1 seed1) as [[st2 evs2] out].
      cbn [fst snd] in *. apply Forall_app. split; [exact F1|].
      apply consume_body_next in B as (pre & _ & C). apply IH1.
      - intros o In. apply InC0.
        destruct seed1 as [s|]; [destruct C as (_ & foreign & -> & _)|subst c0];
          rewrite fmap_app; apply elem_of_app; right; [|done].
        cbn. by apply elem_of_cons; right.
      - intros s ->. by destruct C as [-> _]. }
    cbn [consume_loop]. destruct seed as [sd|].
    - by apply Pass; [apply InS|].
    - destruct c as [|[late sd] rest]; cbn [receive]; [by constructor|].
      apply Pass.
      + apply InC. cbn. by apply elem_of_cons; left.
      + intros o In. apply InC. cbn. by apply elem_of_cons; right. }
  intros fuel. by apply Gen.
Qed.

End consume_more.

Section batch_more_runs.
Import Batch Mem Samples.
#[local] Abbreviation store := (gmap (bytes * bytes * bytes) bytes).

(** A batch of one with a second append waiting. *)
Lemma handleBatch_bounded_witness :
  Z.of_nat (length (h_applied
    (handleBatch conf1 Overlay.writer (Overlay.newWrapper (lookup ∅ logA))
       0 addX (timely [addZ]))))
  ≤ 1.
Proof.
  apply (handleBatch_bounded conf1 Overlay.writer
           (Overlay.newWrapper (lookup ∅ logA)) 0 addX (timely [addZ])).
  change (1 ≤ 1 < 2 ^ 63). lia.
Defined.

(** Without a batch size both appends go into one batch. *)
Lemma handleBatch_unbounded_witness :
  h_ch (handleBatch conf0 Overlay.writer (Overlay.newWrapper (lookup ∅ logA))
          0 addX (timely [addZ])) = []
  ∧ h_applied (handleBatch conf0 Overlay.writer (Overlay.newWrapper (lookup ∅ logA))
                 0 addX (timely [addZ])) = [addX; addZ]
  ∧ @None (chObject mutation) = None.
Proof.
  apply (handleBatch_unbounded conf0 Overlay.writer
           (Overlay.newWrapper (lookup ∅ logA)) 0 addX (timely [addZ]) 2 None).
  - change (- 2 ^ 62 ≤ 0 ≤ 0). lia.
  - change (1 < 2 ^ 62). lia.
  - repeat constructor.
  - vm_compute. reflexivity.
Defined.

(** Two appends to one log, in one batch of up to ten. *)
Lemma handleBatch_fifo_witness :
  ∃ pre : arrivals mutation,
    timely [addZ]
    = pre ++ h_ch (handleBatch conf10 Overlay.writer
                     (Overlay.newWrapper (lookup ∅ logA)) 0 addX (timely [addZ]))
    ∧ h_applied (handleBatch conf10 Overlay.writer
                   (Overlay.newWrapper (lookup ∅ logA)) 0 addX (timely [addZ]))
      = addX :: pre.*2.
Proof.
  apply (handleBatch_fifo conf10 Overlay.writer
           (Overlay.newWrapper (lookup ∅ logA)) 0 addX (timely [addZ]) 2).
  vm_compute. reflexivity.
Defined.

Lemma consume_single_namespace_fifo_witness :
  applies (consume conf10 (∅ : store) (timely [addX; addZ])).1.2 = [addX; addZ].
Proof.
  destruct (consume conf10 (∅ : store) (timely [addX; addZ]))
    as [[st' evs] out] eqn:E.
  assert (out = Returned) as ->.
  { change out with (st', evs, out).2. rewrite <- E. vm_compute. reflexivity. }
  apply (consume_single_namespace_fifo conf10 ∅ st' (timely [addX; addZ]) logA
           evs); [repeat constructor|exact E].
Defined.

(** Appends to two logs, one after the other, in batches of one: both are
    applied. *)
Lemma consume_batch_of_one_fifo_witness :
  applies (consume conf1 (∅ : store) (timely [addX; addY])).1.2 = [addX; addY].
Proof.
  destruct (consume conf1 (∅ : store) (timely [addX; addY]))
    as [[st' evs] out] eqn:E.
  assert (out = Returned) as ->.
  { change out with (st', evs, out).2. rewrite <- E. vm_compute. reflexivity. }
  apply (consume_batch_of_one_fifo conf1 ∅ st' (timely [addX; addY]) evs);
    [reflexivity|exact E].
Defined.

End batch_more_runs.

(** ** The overlay and the store it is replayed into *)

Section overlay_store.
Context {Msg : Type} `{!Proto Msg}.
Import Overlay.

(** X10.  Overlay, then replay, is transparent.  Take a key writer that
    reads back what was set under a pair and leaves the other pairs alone,
    and an overlay whose parent reads that writer as it stands.  After any
    history of [Set] calls on the overlay, once its replay list has been
    replayed into the writer without error, the writer reads for every
    pair what the overlay read at the end of the batch (protobuf
    round-tripping). *)
Theorem replay_agrees_with_overlay {W} (kw : KV.KeyWriter Msg W) (w0 w1 : W)
    (calls : list (op Msg)) :
  ProtoRoundTrip Msg →
  (∀ w w' bucket key v,
     KV.kwSet kw w bucket key v = (w', None) →
     KV.kwGet kw w' bucket key = Ok v
     ∧ ∀ bucket' key', (bucket', key') ≠ (bucket, key) →
         KV.kwGet kw w' bucket' key' = KV.kwGet kw w bucket' key') →
  KV.run kw (replay (L (SetAll (newWrapper (KV.kwGet kw w0)) calls)) (KV.Return ())) w0
  = (w1, Ok ()) →
  ∀ bucket key,
    KV.kwGet kw w1 bucket key
    = mapNoLockDB_Get (SetAll (newWrapper (KV.kwGet kw w0)) calls) bucket key.
Proof.
  intros RT Laws. revert w1.
  induction calls as [|c calls IH] using rev_ind; intros w1 R bucket key.
  - cbn in R. by injection R as <-.
  - rewrite SetAll_snoc in *.
    destruct (Marshal (Value c)) as [b|e] eqn:E.
    + rewrite (Set_accepted _ _ _ E) in *. cbn [fst L M Parent] in *.
      rewrite run_replay_snoc in R.
      destruct (KV.run kw (replay (L (SetAll (newWrapper (KV.kwGet kw w0)) calls))
                             (KV.Return ())) w0) as [w' [[]|e]] eqn:R'; [|done].
      destruct (KV.kwSet kw w' (Bucket c) (Key c) (Value c)) as [w'' [e|]] eqn:S;
        [done|]. injection R as <-.
      destruct (Laws _ _ _ _ _ S) as [Same Other].
      unfold mapNoLockDB_Get. cbn [M Parent].
      destruct (decide ((bucket, key) = (Bucket c, Key c))) as [[= -> ->]|Ne].
      * rewrite lookup_insert_eq, Same. symmetry. by apply RT.
      * rewrite lookup_insert_ne.
        -- rewrite (Other _ _ Ne). apply (IH w' eq_refl).
        -- intros [? ?]%mapKey_inj. apply Ne. congruence.
    + rewrite (Set_refused _ _ _ E) in *. cbn [fst] in *. by apply IH.
Qed.

End overlay_store.

Section overlay_store_runs.
Import Overlay Mem.

(** The in-memory writer of raw bytes meets the two laws; a write to one
    pair is then read from the writer after the replay. *)
Lemma replay_agrees_with_overlay_witness :
  KV.kwGet memKV
    (KV.run (memKV (Msg:=bytes))
       (replay (L (SetAll (newWrapper (KV.kwGet memKV ∅))
                     [ {| Key := bucket "k"; Bucket := bucket "entry";
                          Value := bucket "v" |} ]))
          (KV.Return ())) ∅).1
    (bucket "entry") (bucket "k")
  = mapNoLockDB_Get
      (SetAll (newWrapper (KV.kwGet memKV ∅))
         [ {| Key := bucket "k"; Bucket := bucket "entry"; Value := bucket "v" |} ])
      (bucket "entry") (bucket "k").
Proof.
  destruct (KV.run (memKV (Msg:=bytes))
              (replay (L (SetAll (newWrapper (KV.kwGet memKV ∅))
                            [ {| Key := bucket "k"; Bucket := bucket "entry";
                                 Value := bucket "v" |} ]))
                 (KV.Return ())) ∅) as [w1 res] eqn:R.
  assert (res = Ok ()) as ->.
  { change res with (w1, res).2. rewrite <- R. vm_compute. reflexivity. }
  cbn [fst].
  apply (replay_agrees_with_overlay (Msg:=bytes) memKV ∅ w1 _); [| |exact R].
  - intros v b [= <-]. reflexivity.
  - intros w w' b k v [= <-]. cbn. split.
    + by rewrite lookup_insert_eq.
    + intros b' k' Ne. by rewrite lookup_insert_ne.
Defined.

End overlay_store_runs.

(** ** [LogTreeHash]: what a success is *)

Section log_tree_hash_more.
Context {Msg : Type} `{!Service.LogReads Msg}.
Context {Store : Type} `{!KV.Substrate Msg Store}.
Import Service.

(** X11.  A successful answer of [LogTreeHash] is one of two: the head of
    the log as stored, when the size asked for is 0 or the head's own
    size; or, for a size that is positive and below the head's, exactly
    the size asked for with the root hash stored for that size.  It is
    never given for a negative size or by guessing a root. *)
Theorem LogTreeHash_success_shape (st : Store) req resp :
  LogTreeHash st req = Ok resp →
  0 ≤ Pb.TreeSize req
  ∧ verifyAccessForLogOperation (Pb.Log req) = None
  ∧ ∃ ns kr head,
      logBucket (Pb.Log req) = Ok ns
      ∧ KV.snapshot st ns = Ok kr
      ∧ lookupLogTreeHead kr (Pb.LogType_ (Pb.Log req)) = Ok head
      ∧ ((Pb.TreeSize req = 0 ∨ Pb.TreeSize req = Pb.RespTreeSize head)
         ∧ resp = head
         ∨ 0 < Pb.TreeSize req < Pb.RespTreeSize head
           ∧ ∃ m, lookupLogRootHashBySize kr (Pb.LogType_ (Pb.Log req))
                    (Pb.TreeSize req) = Ok m
                  ∧ resp = {| Pb.RespTreeSize := Pb.TreeSize req;
                              Pb.RootHash := Pb.Mth m |}).
Proof.
  unfold LogTreeHash.
  destruct (verifyAccessForLogOperation (Pb.Log req)) as [e|] eqn:A; [done|].
  case_bool_decide as Neg; [done|].
  destruct (logBucket (Pb.Log req)) as [ns|e] eqn:B; [|done].
  unfold KV.ExecuteReadOnly.
  destruct (KV.snapshot st ns) as [kr|e] eqn:Sn; [|done].
  cbn [mbind result_bind]. unfold LogTreeHash_body.
  destruct (lookupLogTreeHead kr (Pb.LogType_ (Pb.Log req))) as [head|e] eqn:Hd;
    [|done].
  cbn [mbind result_bind]. intros R.
  split; [lia|]. split; [done|]. exists ns, kr, head.
  split; [done|]. split; [done|]. split; [done|].
  destruct (decide (Pb.TreeSize req = 0)) as [Zero|NotZero].
  { rewrite (bool_decide_eq_true_2 _ Zero) in R. cbn [orb] in R.
    injection R as <-. left. auto. }
  rewrite (bool_decide_eq_false_2 _ NotZero) in R. cbn [orb] in R.
  destruct (decide (Pb.TreeSize req = Pb.RespTreeSize head)) as [Same|NotSame].
  { rewrite (bool_decide_eq_true_2 _ Same) in R. injection R as <-. left. auto. }
  rewrite (bool_decide_eq_false_2 _ NotSame) in R.
  case_bool_decide as Above; [done|].
  destruct (lookupLogRootHashBySize kr _ _) as [m|e] eqn:Rt; [|done].
  cbn [mbind result_bind] in R. injection R as <-.
  right. split; [lia|]. by exists m.
Qed.

End log_tree_hash_more.

Section log_tree_hash_more_runs.
Import Service Mem.

(** The log of three entries asked for its root at size 2. *)
Lemma LogTreeHash_success_shape_witness :
  LogTreeHash storeLog3 {| Pb.Log := logARef; Pb.TreeSize := 2 |}
  = Ok {| Pb.RespTreeSize := 2; Pb.RootHash := root 2 |}
  ∧ 0 ≤ 2.
Proof.
  assert (LogTreeHash storeLog3 {| Pb.Log := logARef; Pb.TreeSize := 2 |}
          = Ok {| Pb.RespTreeSize := 2; Pb.RootHash := root 2 |}) as R
    by (vm_compute; reflexivity).
  split; [exact R|].
  exact (proj1 (LogTreeHash_success_shape storeLog3 _ _ R)).
Defined.

End log_tree_hash_more_runs.

(** ** The proof headers, piece by piece *)

Section proof_headers.
Context `{!Client.GoLib}.
Import Client ProofHeaders.

Lemma forRange_app {A B} (body : A → B → outcome A) a (l1 l2 : list B) :
  forRange body a (l1 ++ l2)
  = match forRange body a l1 with
    | Done (Ok a') => forRange body a' l2
    | stop => stop
    end.
Proof.
  revert a. induction l1 as [|x l1 IH]; intros a; [done|]. cbn.
  destruct (body a x) as [[a'|e]|]; [apply IH|done..].
Qed.

Lemma forRange_bind {A B C} (body : A → C → outcome A) (g : B → list C) a
    (l : list B) :
  forRange (λ a h, forRange body a (g h)) a l = forRange body a (l ≫= g).
Proof.
  revert a. induction l as [|h l IH]; intros a; [done|].
  cbn [forRange]. change ((h :: l) ≫= g) with (g h ++ (l ≫= g)).
  rewrite forRange_app.
  destruct (forRange body a (g h)) as [[a'|e]|]; [apply IH|done..].
Qed.

(** The two loops of [parseHeadersForProof] are one loop over the pieces. *)
Lemma parseHeadersForProof_pieces headers :
  parseHeadersForProof headers
  = forRange parseEntry (replicate 256 None) (pieces headers).
Proof.
  unfold parseHeadersForProof, pieces.
  destruct (headers !! CanonicalHeaderKey "X-Verified-Proof"); [|done].
  apply forRange_bind.
Qed.

Lemma parseEntry_entryOf prv commad :
  parseEntry prv commad
  = match entryOf commad with
    | None => Done (Ok prv)
    | Some (Fail err) => Done (Fail err)
    | Some (Ok (idx, bs)) =>
        if bool_decide (idx < 256) then
          match sliceStore prv idx (Some bs) with
          | Some prv' => Done (Ok prv')
          | None => Panic
          end
        else Done (Ok prv)
    end.
Proof.
  unfold parseEntry, entryOf.
  destruct (SplitN2 "/" commad) as [|bits0 [|bits1 [|? ?]]]; try done.
  destruct (Atoi (TrimSpace bits0)) as [idx|e]; [|done]. cbn.
  by destruct (DecodeString (TrimSpace bits1)) as [bs|e].
Qed.

Lemma lastEntry_cons commad l i :
  lastEntry (commad :: l) i
  = match lastEntry l i with
    | Some bs => Some bs
    | None =>
        match entryOf commad with
        | Some (Ok (idx, bs)) => if bool_decide (idx = i) then Some bs else None
        | _ => None
        end
    end.
Proof.
  unfold lastEntry. cbn [omap list_omap].
  destruct (entryOf commad) as [[[idx bs]|e]|];
    try (by destruct (last _)).
  case_bool_decide; [|by destruct (last _)].
  rewrite last_cons. by destruct (last _).
Qed.

(** How the loop over the pieces ends, from a path of 256 entries. *)
Lemma forRange_parseEntry l prv0 :
  length prv0 = 256%nat →
  match forRange parseEntry prv0 l with
  | Done (Ok prv) =>
      Forall harmless l ∧ length prv = 256%nat
      ∧ ∀ i, (i < 256)%nat →
          prv !! i = match lastEntry l (Z.of_nat i) with
                     | Some bs => Some (Some bs)
                     | None => prv0 !! i
                     end
  | Done (Fail err) =>
      ∃ pre commad post,
        l = pre ++ commad :: post ∧ Forall harmless pre
        ∧ entryOf commad = Some (Fail err)
  | Panic =>
      ∃ pre commad post idx bs,
        l = pre ++ commad :: post ∧ Forall harmless pre
        ∧ entryOf commad = Some (Ok (idx, bs)) ∧ idx < 0
  end.
Proof.
  revert prv0. induction l as [|c l IH]; intros prv0 Len.
  { cbn. split; [by constructor|]. split; [done|]. intros i _.
    by unfold lastEntry. }
  cbn [forRange]. rewrite parseEntry_entryOf.
  assert (∀ prv1,
    length prv1 = 256%nat → harmless c →
    (∀ i, (i < 256)%nat →
       match lastEntry (c :: l) (Z.of_nat i) with
       | Some bs => Some (Some bs)
       | None => prv0 !! i
       end
       = match lastEntry l (Z.of_nat i) with
         | Some bs => Some (Some bs)
         | None => prv1 !! i
         end) →
    match forRange parseEntry prv1 l with
    | Done (Ok prv) =>
        Forall harmless (c :: l) ∧ length prv = 256%nat
        ∧ ∀ i, (i < 256)%nat →
            prv !! i = match lastEntry (c :: l) (Z.of_nat i) with
                       | Some bs => Some (Some bs)
                       | None => prv0 !! i
                       end
    | Done (Fail err) =>
        ∃ pre commad post,
          c :: l = pre ++ commad :: post ∧ Forall harmless pre
          ∧ entryOf commad = Some (Fail err)
    | Panic =>
        ∃ pre commad post idx bs,
          c :: l = pre ++ commad :: post ∧ Forall harmless pre
          ∧ entryOf commad = Some (Ok (idx, bs)) ∧ idx < 0
    end) as Next.
  { intros prv1 Len1 Hc Lk. specialize (IH prv1 Len1).
    destruct (forRange parseEntry prv1 l) as [[prv|e]|].
    - destruct IH as (F & L & Slots). split; [by constructor|].
      split; [done|]. intros i Hi. rewrite (Slots i Hi). symmetry. by apply Lk.
    - destruct IH as (pre & c' & post & -> & F & E).
      exists (c :: pre), c', post. split; [done|]. split; [by constructor|done].
    - destruct IH as (pre & c' & post & idx & bs & -> & F & E & N).
      exists (c :: pre), c', post, idx, bs.
      split; [done|]. split; [by constructor|done]. }
  destruct (entryOf c) as [[[idx bs]|e]|] eqn:E.
  - case_bool_decide as Below.
    + unfold sliceStore. case_bool_decide as Inside.
      * apply Next.
        -- by rewrite length_insert.
        -- unfold harmless. rewrite E. lia.
        -- intros i Hi. rewrite lastEntry_cons, E.
           destruct (lastEntry l (Z.of_nat i)) as [bs'|]; [done|].
           case_bool_decide as Eq.
           ++ subst idx. rewrite Nat2Z.id.
              by rewrite list_lookup_insert_eq by lia.
           ++ rewrite list_lookup_insert_ne; [done|]. intros <-. apply Eq.
              rewrite Z2Nat.id; lia.
      * exists [], c, l, idx, bs. split; [done|]. split; [by constructor|].
        split; [done|]. lia.
    + apply Next; [done| |].
      * unfold harmless. rewrite E. lia.
      * intros i Hi. rewrite lastEntry_cons, E.
        destruct (lastEntry l (Z.of_nat i)) as [bs'|]; [done|].
        rewrite bool_decide_eq_false_2; [done|lia].
  - exists [], c, l. split; [done|]. split; [by constructor|done].
  - apply Next; [done| |].
    + unfold harmless. by rewrite E.
    + intros i Hi. rewrite lastEntry_cons, E.
      by destruct (lastEntry l (Z.of_nat i)).
Qed.

(** X12.  In the path [parseHeadersForProof] returns, each of the 256
    entries is the sibling announced for its index by the last piece of
    the headers that announces one, and is absent when no piece does: a
    later entry replaces an earlier one for the same index. *)
Theorem parseHeadersForProof_last_wins headers prv :
  parseHeadersForProof headers = Done (Ok prv) →
  ∀ i, (i < 256)%nat → prv !! i = Some (lastEntry (pieces headers) (Z.of_nat i)).
Proof.
  rewrite parseHeadersForProof_pieces. intros P i Hi.
  pose proof (forRange_parseEntry (pieces headers) (replicate 256 None)
                (length_replicate _ _)) as F.
  rewrite P in F. destruct F as (_ & _ & Slots). rewrite (Slots i Hi).
  destruct (lastEntry (pieces headers) (Z.of_nat i)); [done|].
  by rewrite lookup_replicate_2.
Qed.

(** X13.  [parseHeadersForProof] returns a path exactly when every piece
    of the proof headers is harmless: it has no ["/"], or its index reads
    as a number that is not negative and its sibling as hex.  Pieces with
    an index of 256 or more do not stand in the way. *)
Theorem parseHeadersForProof_succeeds_iff headers :
  (∃ prv, parseHeadersForProof headers = Done (Ok prv))
  ↔ Forall harmless (pieces headers).
Proof.
  rewrite parseHeadersForProof_pieces.
  pose proof (forRange_parseEntry (pieces headers) (replicate 256 None)
                (length_replicate _ _)) as F.
  split.
  - intros [prv P]. rewrite P in F. by destruct F.
  - intros All.
    destruct (forRange parseEntry (replicate 256 None) (pieces headers))
      as [[prv|e]|]; [by exists prv| |].
    + destruct F as (pre & c & post & L & _ & E). rewrite L in All.
      apply Forall_app in All as [_ All]. apply Forall_cons in All as [Hc _].
      unfold harmless in Hc. by rewrite E in Hc.
    + destruct F as (pre & c & post & idx & bs & L & _ & E & N). rewrite L in All.
      apply Forall_app in All as [_ All]. apply Forall_cons in All as [Hc _].
      unfold harmless in Hc. rewrite E in Hc. lia.
Qed.

Lemma first_offender {A} (P : A → Prop) (pre pre' post post' : list A) c c' :
  pre ++ c :: post = pre' ++ c' :: post' →
  Forall P pre → ¬ P c → Forall P pre' → ¬ P c' → c = c'.
Proof.
  revert pre'. induction pre as [|x pre IH]; intros [|x' pre'] E F N F' N'.
  - by injection E.
  - injection E as -> _. apply Forall_cons in F' as [? _]. done.
  - injection E as -> _. apply Forall_cons in F as [? _]. done.
  - injection E as -> E. apply Forall_cons in F as [_ F].
    apply Forall_cons in F' as [_ F']. by apply (IH pre').
Qed.

(** X14.  When the proof headers have a piece that is not harmless, the
    first such piece decides: [parseHeadersForProof] panics (the index of
    [prv[idx]] is out of range) exactly when that piece has a negative
    index, and returns an error exactly when that piece cannot be read,
    the error being that of reading it. *)
Theorem parseHeadersForProof_first_offender headers pre commad post :
  pieces headers = pre ++ commad :: post →
  Forall harmless pre →
  ¬ harmless commad →
  match entryOf commad with
  | Some (Fail err) => parseHeadersForProof headers = Done (Fail err)
  | Some (Ok _) => parseHeadersForProof headers = Panic
  | None => False
  end.
Proof.
  intros L F N. rewrite parseHeadersForProof_pieces.
  pose proof (forRange_parseEntry (pieces headers) (replicate 256 None)
                (length_replicate _ _)) as R.
  destruct (forRange parseEntry (replicate 256 None) (pieces headers))
    as [[prv|e]|].
  - destruct R as (All & _). rewrite L in All.
    apply Forall_app in All as [_ All]. apply Forall_cons in All as [Hc _].
    by destruct (N Hc).
  - destruct R as (pre' & c' & post' & L' & F' & E').
    assert (commad = c') as ->.
    { rewrite L in L'. apply (first_offender harmless _ _ _ _ _ _ L' F N F').
      intros Hc. unfold harmless in Hc. by rewrite E' in Hc. }
    by rewrite E'.
  - destruct R as (pre' & c' & post' & idx & bs & L' & F' & E' & Neg).
    assert (commad = c') as ->.
    { rewrite L in L'. apply (first_offender harmless _ _ _ _ _ _ L' F N F').
      intros Hc. unfold harmless in Hc. rewrite E' in Hc. lia. }
    by rewrite E'.
Qed.

End proof_headers.

Section proof_headers_runs.
Import Client ProofHeaders Samples.
#[local] Existing Instance asciiLib.

(** Two lines announce the sibling 1; the path has the one of the second
    line. *)
Lemma parseHeadersForProof_last_wins_witness :
  ∃ prv,
    parseHeadersForProof twiceHeaders = Done (Ok prv)
    ∧ prv !! 1%nat = Some (Some ["239"%byte]).
Proof.
  assert (match parseHeadersForProof twiceHeaders with
          | Done (Ok _) => True
          | _ => False
          end) as Hp by (vm_compute; exact I).
  destruct (parseHeadersForProof twiceHeaders) as [[prv|e]|] eqn:P;
    [|destruct Hp..].
  exists prv. split; [reflexivity|].
  rewrite (parseHeadersForProof_last_wins twiceHeaders prv P 1%nat) by lia.
  vm_compute. reflexivity.
Defined.

(** A negative index after a good entry: the parser panics. *)
Lemma parseHeadersForProof_first_offender_witness :
  parseHeadersForProof negativeHeaders = Panic.
Proof.
  refine (parseHeadersForProof_first_offender negativeHeaders
            ["1/ab"%string] "-1/cd" [] _ _ _).
  - vm_compute. reflexivity.
  - constructor; [|constructor]. vm_compute. discriminate.
  - vm_compute. intros Hc. apply Hc. reflexivity.
Defined.

End proof_headers_runs.

(** ** [Get]: what is in a proof *)

Section get_fields.
Context `{!Client.GoLib}.
Import Client.

(** X15.  A proof [Get] returns holds the key that was asked for, the
    entry the factory made of the answer's body, the audit path of the
    answer's proof headers, and as tree size the one the answer reports in
    [X-Verified-TreeSize], which need not be the size asked for. *)
Theorem Get_proof_fields {Entry} MakeRequest key treeSize
    (factory : VerifiableEntryFactory Entry) proof :
  Get MakeRequest key treeSize factory = Done (Ok proof) →
  Key proof = key
  ∧ ∃ value headers,
      MakeRequest "GET"
        ("/tree/" +:+ pretty treeSize +:+ "/key/h/"
         +:+ Hex.EncodeToString key +:+ Format factory) = Ok (value, headers)
      ∧ CreateFromBytes factory value = Ok (Value proof)
      ∧ Atoi (Header_Get headers "X-Verified-TreeSize") = Ok (TreeSize proof)
      ∧ parseHeadersForProof headers = Done (Ok (AuditPath proof)).
Proof.
  unfold Get. intros G.
  destruct (MakeRequest _ _) as [[value headers]|e] eqn:M; [|done].
  destruct (parseHeadersForProof headers) as [[prv|e]|] eqn:P; [|done..].
  destruct (CreateFromBytes factory value) as [rv|e] eqn:C; [|done].
  destruct (Atoi (Header_Get headers "X-Verified-TreeSize")) as [vts|e] eqn:A;
    [|done].
  injection G as <-. split; [done|]. by exists value, headers.
Qed.

End get_fields.

Section get_fields_runs.
Import Client.
#[local] Existing Instance asciiLib.

(** Asked at the head (tree size 0), the proof has the size the answer
    reports. *)
Lemma Get_proof_fields_witness :
  ∃ proof,
    Get (answering [] sampleHeaders) [] 0 rawFactory = Done (Ok proof)
    ∧ Key proof = [] ∧ TreeSize proof = 7.
Proof.
  assert (match Get (answering [] sampleHeaders) [] 0 rawFactory with
          | Done (Ok proof) => TreeSize proof = 7
          | _ => False
          end) as Hp by (vm_compute; reflexivity).
  destruct (Get (answering [] sampleHeaders) [] 0 rawFactory)
    as [[proof|e]|] eqn:G; [|destruct Hp..].
  exists proof. split; [reflexivity|].
  split; [exact (proj1 (Get_proof_fields _ _ _ _ _ G))|exact Hp].
Defined.

End get_fields_runs.

(** ** The map client's writes *)

Section client_writes.
Import ClientWrites.

Lemma append_inv_head (p s t : string) : p +:+ s = p +:+ t → s = t.
Proof.
  induction p as [|a p IH]; [done|].
  change (String a (p +:+ s) = String a (p +:+ t) → s = t).
  intros [= E]. by apply IH.
Qed.

Lemma length_append (s t : string) :
  String.length (s +:+ t) = (String.length s + String.length t)%nat.
Proof.
  induction s as [|a s IH]; [done|].
  change (S (String.length (s +:+ t)) = S (String.length s + String.length t)).
  by rewrite IH.
Qed.

Lemma append_inv_tail (s1 s2 t : string) : s1 +:+ t = s2 +:+ t → s1 = s2.
Proof.
  intros E.
  assert (String.length s1 = String.length s2) as Len.
  { apply (f_equal String.length) in E. rewrite !length_append in E. lia. }
  revert s2 E Len. induction s1 as [|a s1 IH]; intros [|b s2] E Len; try done.
  change (String a (s1 +:+ t) = String b (s2 +:+ t)) in E.
  injection E as -> E. f_equal. apply IH; [done|]. cbn in Len. lia.
Qed.

(** X16.  The path the map client writes a key to tells the key: for
    entries of one format, [Set], [Update] and [Delete] of different keys
    go to different paths [/key/h/<hex of the key><format>]. *)
Theorem key_path_inj (key key' : bytes) (format : string) :
  "/key/h/" +:+ Hex.EncodeToString key +:+ format
  = "/key/h/" +:+ Hex.EncodeToString key' +:+ format
  ↔ key = key'.
Proof.
  split; [|by intros ->]. intros E.
  apply append_inv_head, append_inv_tail in E. by apply EncodeToString_inj.
Qed.

(** X17.  [Update] is [Set] with a precondition: when the previous leaf
    has a hash, [Update] does what [Set] does on a client that sends every
    request with the one header [X-Previous-LeafHash], the hex of that
    hash; method, path, body and the reading of the answer are the same. *)
Theorem Update_as_Set `{!Wire} (key : bytes) (value : UploadableEntry)
    (previousLeaf : MerkleTreeLeaf) (prevLF : bytes) :
  LeafHash previousLeaf = Ok prevLF →
  Update key value previousLeaf
  = @Set_ {| MakeRequest := λ method path data _,
               MakeRequest method path data
                 [("X-Previous-LeafHash", Hex.EncodeToString prevLF)];
             unmarshalAddEntry := unmarshalAddEntry |}
      key value.
Proof.
  intros L. unfold Update, Set_, addEntryResponse. rewrite L.
  by destruct (DataForUpload value).
Qed.

End client_writes.

Section client_writes_runs.
Import ClientWrites Samples.
#[local] Existing Instance echoWire.

Lemma Update_as_Set_witness :
  Update (list_byte_of_string "k") rawEntry leaf
  = @Set_ {| MakeRequest := λ method path data _,
               MakeRequest method path data
                 [("X-Previous-LeafHash",
                   Hex.EncodeToString (list_byte_of_string "h"))];
             unmarshalAddEntry := unmarshalAddEntry |}
      (list_byte_of_string "k") rawEntry.
Proof.
  apply (Update_as_Set (list_byte_of_string "k") rawEntry leaf
           (list_byte_of_string "h")).
  reflexivity.
Defined.

End client_writes_runs.
